(** * go-semantic-router: the router, its construction and its matching engine

    A shallow embedding of [route.go] (package [semanticrouter]) and of
    [stores/memory/memory.go] (package [memory]), with the properties of the
    design document stated over it.

    Conventions of the embedding.
    - A Go [float64] is an IEEE 754 binary64 value: [spec_float] with the
      operations of the Standard Library's [SpecFloat] at precision 53 and
      maximal exponent 1024, every operation rounded on its own.
    - A Go slice [[]float64] is a [list float64]; the nil slice and the empty
      slice are both [[]].
    - A Go [error] result is a value of the inductive type [error]; a call
      that returns [(v, err)] is a [result]: [Ok v] when [err == nil] and
      [Err err] otherwise.
    - A run-time panic is the outcome [None] of an [option]-valued function.
    - The [context.Context] argument only carries cancellation to the ports;
      what a port answers is part of the port, so the argument is dropped. *)

From Stdlib Require Import ZArith Lia SpecFloat.
From stdpp Require Import base option list strings gmap.

Open Scope string_scope.

(** ** float64 *)

Module f64.

Definition float64 : Type := spec_float.

Definition prec : Z := 53.
Definition emax : Z := 1024.

(** The literal [0.0]. *)
Definition zero : float64 := S754_zero false.
(** The literal [1.0], that is [2^52 * 2^-52]. *)
Definition one : float64 := S754_finite false 4503599627370496 (-52).
(** The literal [0.9], the binary64 value [0x1.ccccccccccccdp-1]. *)
Definition nine_tenths : float64 := S754_finite false 8106479329266893 (-53).
(** The literal [0.1], the binary64 value [0x1.999999999999ap-4]. *)
Definition one_tenth : float64 := S754_finite false 7205759403792794 (-56).

(** [x + y], [x * y], [x - y] and [|x|]. *)
Definition add (x y : float64) : float64 := SFadd prec emax x y.
Definition mul (x y : float64) : float64 := SFmul prec emax x y.
Definition sub (x y : float64) : float64 := SFsub prec emax x y.
Definition abs (x : float64) : float64 := SFabs x.

(** [x > y]: false as soon as one side is a NaN. *)
Definition gt (x y : float64) : bool := SFltb y x.

End f64.

Import f64.

(** ** Errors *)

(** The error values the two packages build.  [ErrorString] is a leaf error
    coming from a port; [Errorf prefix cause] is
    [fmt.Errorf(prefix + "%w", cause)], and [ErrorfNil prefix] the same call
    when the operand of [%w] is the nil error.  The three struct errors are
    the ones [Match] fills in. *)
Inductive error : Type :=
| ErrorString (msg : string)
| Errorf (prefix : string) (cause : error)
| ErrorfNil (prefix : string)
| ErrEncoding (Message : string)
| ErrGetEmbedding (Message : string)
| ErrNoRouteFound (Message : string) (Utterance : string).

Inductive result (A : Type) : Type :=
| Ok (a : A)
| Err (e : error).
Arguments Ok {A} a.
Arguments Err {A} e.

(** [contains t s]: the text [t] occurs in [s]. *)
Definition contains (t s : string) : bool :=
  match String.index 0 t s with
  | Some _ => true
  | None => false
  end.

(** [mentions t e]: the text [t] occurs in one of the strings the error
    value [e] is made of, its wrapped causes included. *)
Fixpoint mentions (t : string) (e : error) : bool :=
  match e with
  | ErrorString msg => contains t msg
  | Errorf prefix cause => contains t prefix || mentions t cause
  | ErrorfNil prefix => contains t prefix
  | ErrEncoding m => contains t m
  | ErrGetEmbedding m => contains t m
  | ErrNoRouteFound m u => contains t m || contains t u
  end.

(** ** Utterances *)

Module domain.

(** An utterance: its text (the Go field [Utterance], the key of the
    store) and its embedding (the Go field [Embed]), nil until computed. *)
Record Utterance : Type := {
  Text : string;
  Embed : list float64
}.

End domain.

Import domain.

(** ** The in-memory store, [stores/memory/memory.go] *)

Module memory.

(** [store] is the Go map; [None] is the nil map left by [Close].  The
    mutex only serialises the writers and has no state of its own here. *)
Record Store : Type := {
  store : option (gmap string (list float64))
}.

Definition NewStore : Store := {| store := Some ∅ |}.

(** [Get]: reading a nil map finds nothing.  The named result [err] is
    still nil when it is wrapped. *)
Definition Get (s : Store) (utterance : string) : result (list float64) :=
  match store s ≫= (.!! utterance) with
  | Some embedding => Ok embedding
  | None => Err (ErrorfNil "key does not exist: ")
  end.

(** [Set] (a reserved word here, hence [Set_]): assigning into a nil map
    panics. *)
Definition Set_ (s : Store) (utterance : Utterance)
  : option (Store * option error) :=
  match store s with
  | Some m =>
      Some ({| store := Some (<[Text utterance := Embed utterance]> m) |},
            None)
  | None => None
  end.

Definition Close (s : Store) : Store * option error :=
  match store s with
  | None => (s, None)
  | Some _ => ({| store := None |}, None)
  end.

(** A call on the store, and a sequence of calls run from left to right;
    the answers are dropped, a panic stops the run. *)
Inductive call : Type :=
| CallGet (utterance : string)
| CallSet (utterance : Utterance)
| CallClose.

Definition run_call (c : call) (s : Store) : option Store :=
  match c with
  | CallGet _ => Some s
  | CallSet u => fst <$> Set_ s u
  | CallClose => Some (fst (Close s))
  end.

Fixpoint run (cs : list call) (s : Store) : option Store :=
  match cs with
  | [] => Some s
  | c :: cs' => run_call c s ≫= run cs'
  end.

(** [c] neither closes the store nor writes under the key [k]. *)
Definition keeps (k : string) (c : call) : Prop :=
  match c with
  | CallGet _ => True
  | CallSet u => Text u ≠ k
  | CallClose => False
  end.

(** [c] does not write under the key [k]. *)
Definition never_sets (k : string) (c : call) : Prop :=
  match c with
  | CallSet u => Text u ≠ k
  | _ => True
  end.

End memory.

(** ** The router, [route.go] *)

Module semanticrouter.

(** What a function of the package leaves behind: a panic, an early
    [return] with an error, or a value. *)
Inductive outcome (A : Type) : Type :=
| Panic
| Raise (e : error)
| Value (a : A).
Arguments Panic {A}.
Arguments Raise {A} e.
Arguments Value {A} a.

(** gonum's [*mat.VecDense]: the backing data, of length [Len]. *)
Definition VecDense : Type := list float64.

Definition Len (v : VecDense) : nat := length v.

(** [mat.NewVecDense(n, data)] of the library gonum: it panics when [n]
    is zero ("mat: zero length in matrix dimension") and when [data] is
    neither nil nor of length [n]; a nil [data] is allocated. *)
Definition NewVecDense (n : nat) (data : list float64) : option VecDense :=
  match n with
  | O => None
  | S _ =>
      if Nat.eqb (length data) n then Some data
      else match data with
           | [] => Some (replicate n zero)
           | _ :: _ => None
           end
  end.

Record Route : Type := {
  Name : string;
  Utterances : list Utterance
}.

(** The interface [Encoder], over the state [E] of an encoder. *)
Class Encoder (E : Type) : Type :=
  Encode : E → string → result (list float64).

(** The interface [Store], over the state [S] of a store.  Its method
    [Store] is [StoreUtterance] here (the class has the name); it answers
    with the state it leaves and its error. *)
Class Store (S : Type) : Type := {
  StoreUtterance : S → Utterance → S * option error;
  Get : S → string → result (list float64)
}.

Record biFuncCoefficient : Type := {
  Func : VecDense → VecDense → float64;
  Coefficient : float64
}.

(** The struct [Router]; its field [Encoder] is [RouterEncoder] here.
    [Storage] is the state of the store the router shares with its
    caller. *)
Record Router (E S : Type) : Type := {
  Routes : list Route;
  RouterEncoder : E;
  Storage : S;
  biFuncCoefficients : list biFuncCoefficient
}.
Arguments Routes {E S} r.
Arguments RouterEncoder {E S} r.
Arguments Storage {E S} r.
Arguments biFuncCoefficients {E S} r.

(** The type [Option], a function on a pointer to a router: what the
    function does to the router. *)
Definition Option (E S : Type) : Type := Router E S → Router E S.

(** [r.biFuncCoefficients = append(r.biFuncCoefficients, fn)] *)
Definition appended {E S : Type} (r : Router E S) (fn : biFuncCoefficient)
  : Router E S :=
  {| Routes := Routes r;
     RouterEncoder := RouterEncoder r;
     Storage := Storage r;
     biFuncCoefficients := (biFuncCoefficients r ++ [fn])%list |}.

Section Options.

Context {E S : Type}.

(** The five similarity functions of the package.  They are defined in
    another file of the package and are parameters here: the options only
    store them. *)
Variables SimilarityDotMatrix EuclideanDistance ManhattanDistance
          JaccardSimilarity PearsonCorrelation
  : VecDense → VecDense → float64.

Definition WithSimilarityDotMatrix (coefficient : float64) : Option E S :=
  fun r =>
    appended r {| Func := SimilarityDotMatrix;
                  Coefficient := coefficient |}.

Definition WithEuclideanDistance (coefficient : float64) : Option E S :=
  fun r =>
    appended r {| Func := EuclideanDistance;
                  Coefficient := coefficient |}.

Definition WithManhattanDistance (coefficient : float64) : Option E S :=
  fun r =>
    appended r {| Func := ManhattanDistance;
                  Coefficient := coefficient |}.

Definition WithJaccardSimilarity (coefficient : float64) : Option E S :=
  fun r =>
    appended r {| Func := JaccardSimilarity;
                  Coefficient := coefficient |}.

Definition WithPearsonCorrelation (coefficient : float64) : Option E S :=
  fun r =>
    appended r {| Func := PearsonCorrelation;
                  Coefficient := coefficient |}.

End Options.

(** Applying options one after the other, as a caller does with
    [opt(router)]. *)
Definition applyOptions {E S : Type} (opts : list (Option E S))
    (r : Router E S) : Router E S :=
  foldl (fun r opt => opt r) r opts.

Section Construction.

Context {E S : Type} `{!Encoder E} `{!Store S}.

(** The method [SetEmbedding] of an utterance, defined in the package
    [domain] and a parameter here.  It is called on the loop variable, a
    copy of the utterance of the route: it answers with the new value of
    that variable, or with its error. *)
Variable SetEmbedding : Utterance → list float64 → result Utterance.

(** The world [NewRouter] works in: the state of the store, and, as a
    record of what happened, the utterances handed to the store's method
    [Store], oldest first. *)
Definition world : Type := S * list Utterance.

(** The loop [for _, utter := range utters].  [Some err] is the early
    [return nil, err]. *)
Fixpoint embedUtterances (encoder : E) (utters : list Utterance)
    (w : world) : world * option error :=
  match utters with
  | [] => (w, None)
  | utter :: rest =>
      match Encode encoder (Text utter) with
      | Err err => (w, Some (Errorf "error encoding utterance: " err))
      | Ok en =>
          match SetEmbedding utter en with
          | Err err => (w, Some (Errorf "error encoding utterance: " err))
          | Ok utter' =>
              let '(store', err) := StoreUtterance (fst w) utter' in
              let w' := (store', (snd w ++ [utter'])%list) in
              match err with
              | Some err =>
                  (w', Some (Errorf ("error storing utterance: "
                                     +:+ Text utter' +:+ ": ") err))
              | None => embedUtterances encoder rest w'
              end
          end
      end
  end.

(** The loop [for i := 0; i < routesLen; i++]. *)
Fixpoint embedRoutes (encoder : E) (routes : list Route) (w : world)
    : world * option error :=
  match routes with
  | [] => (w, None)
  | route :: rest =>
      let utters := Utterances route in
      match embedUtterances encoder utters w with
      | (w', Some err) => (w', Some err)
      | (w', None) => embedRoutes encoder rest w'
      end
  end.

(** [NewRouter]: the world it leaves and what it returns, [Err err] for
    [(nil, err)] and [Ok router] for [(router, nil)]. *)
Definition NewRouter (routes : list Route) (encoder : E) (store : S)
    (opts : list (Option E S)) : world * result (Router E S) :=
  match embedRoutes encoder routes (store, []) with
  | (w, Some err) => (w, Err err)
  | (w, None) =>
      (w, Ok {| Routes := routes;
                RouterEncoder := encoder;
                Storage := fst w;
                biFuncCoefficients := [] |})
  end.

End Construction.

Section Matching.

Context {E S : Type} `{!Encoder E} `{!Store S}.

(** [computeScore]: the loop over [r.biFuncCoefficients], [score]
    being the accumulator. *)
Fixpoint accumulate (fns : list biFuncCoefficient)
    (queryVec indexVec : VecDense) (score : float64) : float64 :=
  match fns with
  | [] => score
  | fn :: rest =>
      accumulate rest queryVec indexVec
        (add score (mul (Coefficient fn) (Func fn queryVec indexVec)))
  end.

Definition computeScore (r : Router E S) (queryVec indexVec : VecDense)
    : float64 :=
  accumulate (biFuncCoefficients r) queryVec indexVec zero.

(** The running best of [Match]: [(bestRouteName, bestScore)]. *)
Definition best : Type := string * float64.

(** The loop [for _, ut := range route.Utterances] of [Match]. *)
Fixpoint scanUtterances (r : Router E S) (queryVec : VecDense)
    (name : string) (uts : list Utterance) (b : best) : outcome best :=
  match uts with
  | [] => Value b
  | ut :: rest =>
      match Get (Storage r) (Text ut) with
      | Err _ =>
          Raise (ErrGetEmbedding
                   ("error getting embedding: " +:+ Text ut))
      | Ok em =>
          let emLen := length em in
          if negb (Nat.eqb emLen (Len queryVec))
          then scanUtterances r queryVec name rest b
          else
            match NewVecDense emLen em with
            | None => Panic
            | Some indexVec =>
                let simScore := computeScore r queryVec indexVec in
                scanUtterances r queryVec name rest
                  (if gt simScore (snd b) then (name, simScore) else b)
            end
      end
  end.

(** The loop [for _, route := range r.Routes] of [Match]. *)
Fixpoint scanRoutes (r : Router E S) (queryVec : VecDense)
    (routes : list Route) (b : best) : outcome best :=
  match routes with
  | [] => Value b
  | route :: rest =>
      match scanUtterances r queryVec (Name route) (Utterances route) b
      with
      | Value b' => scanRoutes r queryVec rest b'
      | stopped => stopped
      end
  end.

(** The function handed to [eg.Go]: its error, or the named results
    [bestRouteName] and [bestScore] it has assigned. *)
Definition matchTask (r : Router E S) (utterance : string)
    : outcome best :=
  match Encode (RouterEncoder r) utterance with
  | Err _ =>
      Raise (ErrEncoding ("error encoding utterance: " +:+ utterance))
  | Ok encoding =>
      match NewVecDense (length encoding) encoding with
      | None => Panic
      | Some queryVec =>
          match scanRoutes r queryVec (Routes r) ("", zero) with
          | Value (bestRouteName, bestScore) =>
              if String.eqb bestRouteName ""
              then Raise (ErrNoRouteFound "no route found" utterance)
              else Value (bestRouteName, bestScore)
          | stopped => stopped
          end
      end
  end.

(** [Match]: [None] when the task panics, else the three results
    [(bestRouteName, bestScore, err)]. *)
Definition Match (r : Router E S) (utterance : string)
    : option (string * float64 * option error) :=
  match matchTask r utterance with
  | Panic => None
  | Raise err => Some ("", zero, Some (Errorf "no route found: " err))
  | Value (bestRouteName, bestScore) =>
      Some (bestRouteName, bestScore, None)
  end.

End Matching.

End semanticrouter.

Import semanticrouter.

(** ** The scan of [Match], candidate by candidate *)

(** The two nested loops of [Match] visit the utterances of the routes in
    order; a candidate is an utterance with the name of its route. *)
Definition candidate : Type := string * Utterance.

Definition candidatesOf (route : Route) : list candidate :=
  (fun ut => (Name route, ut)) <$> Utterances route.

Definition candidates (routes : list Route) : list candidate :=
  routes ≫= candidatesOf.

(** All the utterances of the routes, in the order [NewRouter] and [Match]
    visit them. *)
Definition allUtterances (routes : list Route) : list Utterance :=
  routes ≫= Utterances.

(** One turn of the inner loop of [Match] on the candidate [c]. *)
Definition scanStep {E S : Type} `{!Store S} (r : Router E S)
    (queryVec : VecDense) (c : candidate) (b : best) : outcome best :=
  scanUtterances r queryVec (fst c) [snd c] b.

Fixpoint scanCandidates {E S : Type} `{!Store S} (r : Router E S)
    (queryVec : VecDense) (cs : list candidate) (b : best) : outcome best :=
  match cs with
  | [] => Value b
  | c :: rest =>
      match scanStep r queryVec c b with
      | Value b' => scanCandidates r queryVec rest b'
      | stopped => stopped
      end
  end.

(** What one turn of the loop of [Match] does with the running best [b],
    for a candidate [c] whose embedding [em] is scored. *)
Definition turn {E S : Type} (r : Router E S) (queryVec : VecDense)
    (c : candidate) (em : list float64) (b : best) : best :=
  if gt (computeScore r queryVec em) (snd b)
  then (fst c, computeScore r queryVec em)
  else b.

(** What [Match] makes of the outcome of the scan that started from
    [("", 0.0)]: the check of [bestRouteName], then the three results. *)
Definition finish (utterance : string) (o : outcome best)
    : option (string * float64 * option error) :=
  match o with
  | Panic => None
  | Raise err => Some ("", zero, Some (Errorf "no route found: " err))
  | Value (bestRouteName, bestScore) =>
      if String.eqb bestRouteName ""
      then Some ("", zero,
                 Some (Errorf "no route found: "
                         (ErrNoRouteFound "no route found" utterance)))
      else Some (bestRouteName, bestScore, None)
  end.

(** [scored r queryVec cs b]: the running best [b] is the route name and
    the score of a candidate of [cs] whose embedding was retrieved with the
    length of the query vector. *)
Definition scored {E S : Type} `{!Store S} (r : Router E S)
    (queryVec : VecDense) (cs : list candidate) (b : best) : Prop :=
  ∃ c em, c ∈ cs
          ∧ fst c = fst b
          ∧ Get (Storage r) (Text (snd c)) = Ok em
          ∧ length em = length queryVec
          ∧ snd b = computeScore r queryVec em.

(** The failure [Match] returns when no route was found for [utterance]. *)
Definition noRouteFound (utterance : string)
    : option (string * float64 * option error) :=
  Some ("", zero,
        Some (Errorf "no route found: "
                (ErrNoRouteFound "no route found" utterance))).

(** The router [r] with the routes [routes] in place of its own. *)
Definition withRoutes {E S : Type} (r : Router E S) (routes : list Route)
    : Router E S :=
  {| Routes := routes;
     RouterEncoder := RouterEncoder r;
     Storage := Storage r;
     biFuncCoefficients := biFuncCoefficients r |}.

(** ** The score, in the words of the design document *)

(** The terms [coefficient * metric(query, candidate)], one for each
    configured metric, in the order of the list. *)
Definition weightedTerms (fns : list biFuncCoefficient)
    (queryVec indexVec : VecDense) : list float64 :=
  (fun fn => mul (Coefficient fn) (Func fn queryVec indexVec)) <$> fns.

(** The sum of a list of terms, taken in the order of the list from [0.0]. *)
Definition sumInOrder (terms : list float64) : float64 :=
  foldl add zero terms.

(** ** Ports and functions to run the router on *)

Module fixtures.

(** Modelled from the spec: the method [SetEmbedding] of [domain.Utterance],
    whose file is not under the sources.  The design document has the
    construction "attach the resulting vector to the utterance"; no
    failure of that step is described. *)
Definition attachEmbedding (u : Utterance) (embedding : list float64)
    : result Utterance :=
  Ok {| Text := Text u; Embed := embedding |}.

(** Modelled from the spec: [SimilarityDotMatrix], whose file is not under
    the sources: "sum over dimensions of [query[i] * candidate[i]]". *)
Fixpoint dotFrom (acc : float64) (query candidate : VecDense) : float64 :=
  match query, candidate with
  | q :: query', c :: candidate' =>
      dotFrom (add acc (mul q c)) query' candidate'
  | _, _ => acc
  end.

Definition SimilarityDotMatrix (query candidate : VecDense) : float64 :=
  dotFrom zero query candidate.

(** Modelled from the spec: [ManhattanDistance], whose file is not under
    the sources: "L1 distance, [sum(|query[i]-candidate[i]|)]". *)
Fixpoint manhattanFrom (acc : float64) (query candidate : VecDense)
    : float64 :=
  match query, candidate with
  | q :: query', c :: candidate' =>
      manhattanFrom (add acc (abs (sub q c))) query' candidate'
  | _, _ => acc
  end.

Definition ManhattanDistance (query candidate : VecDense) : float64 :=
  manhattanFrom zero query candidate.

(** An encoder that answers from a table, and fails on a text the table
    does not have. *)
Definition TableEncoder : Type := list (string * result (list float64)).

Fixpoint answer (table : TableEncoder) (text : string)
    : result (list float64) :=
  match table with
  | [] => Err (ErrorString "encoder: unknown text")
  | (t, a) :: table' =>
      if String.eqb t text then a else answer table' text
  end.

#[global] Instance TableEncoder_Encoder : Encoder TableEncoder := answer.

(** A store that keeps the embeddings in a finite map, and refuses to
    write under the keys of [refused]. *)
Record MapStore : Type := {
  cells : gmap string (list float64);
  refused : list string
}.

Definition put (s : MapStore) (u : Utterance) : MapStore * option error :=
  if existsb (String.eqb (Text u)) (refused s)
  then (s, Some (ErrorString "store: write refused"))
  else ({| cells := <[Text u := Embed u]> (cells s);
           refused := refused s |}, None).

Definition fetch (s : MapStore) (key : string) : result (list float64) :=
  match cells s !! key with
  | Some v => Ok v
  | None => Err (ErrorString "store: key not found")
  end.

#[global] Instance MapStore_Store : Store MapStore := {
  StoreUtterance := put;
  Get := fetch
}.

Definition emptyStore : MapStore := {| cells := ∅; refused := [] |}.

Definition utterance (text : string) : Utterance :=
  {| Text := text; Embed := [] |}.

(** One route, one utterance, as in the single-route scenario of the
    design document. *)
Definition chitchat : Route :=
  {| Name := "chitchat"; Utterances := [utterance "hi"] |}.

Definition hiEncoder : TableEncoder :=
  [("hi", Ok [one; zero; zero]);
   ("hello", Ok [nine_tenths; one_tenth; zero]);
   ("", Ok [])].

(** Two routes, five utterances; the encoder fails on the third. *)
Definition politics : Route :=
  {| Name := "politics";
     Utterances := [utterance "alpha"; utterance "beta";
                    utterance "gamma"] |}.

Definition weather : Route :=
  {| Name := "weather";
     Utterances := [utterance "delta"; utterance "epsilon"] |}.

Definition thirdFails : TableEncoder :=
  [("alpha", Ok [one; zero]);
   ("beta", Ok [zero; one]);
   ("gamma", Err (ErrorString "encoder: backend unavailable"));
   ("delta", Ok [one; one]);
   ("epsilon", Ok [zero; zero])].

Definition allFive : TableEncoder :=
  [("alpha", Ok [one; zero]);
   ("beta", Ok [zero; one]);
   ("gamma", Ok [one; one]);
   ("delta", Ok [one; one]);
   ("epsilon", Ok [zero; zero])].

(** A store that refuses to write under the third text. *)
Definition refusesThird : MapStore := {| cells := ∅; refused := ["gamma"] |}.

Definition greetings : Route :=
  {| Name := "greetings"; Utterances := [utterance "hey"] |}.

(** A router over [emptyStore] filled by hand. *)
Definition filled (entries : list (string * list float64)) : MapStore :=
  {| cells := list_to_map entries; refused := [] |}.

Definition router (routes : list Route) (entries : list (string * list float64))
    (fns : list biFuncCoefficient) : Router TableEncoder MapStore :=
  {| Routes := routes;
     RouterEncoder := hiEncoder;
     Storage := filled entries;
     biFuncCoefficients := fns |}.

Definition dot (coefficient : float64) : biFuncCoefficient :=
  {| Func := SimilarityDotMatrix; Coefficient := coefficient |}.

End fixtures.

(** ** Choices of options *)

Section Choices.

Context {E S : Type}.

Variables SimilarityDotMatrix EuclideanDistance ManhattanDistance
          JaccardSimilarity PearsonCorrelation
  : VecDense → VecDense → float64.

(** The five recognised options, each with its coefficient. *)
Inductive choice : Type :=
| DotMatrix (coefficient : float64)
| Euclidean (coefficient : float64)
| Manhattan (coefficient : float64)
| Jaccard (coefficient : float64)
| Pearson (coefficient : float64).

Definition optionOf (ch : choice) : Option E S :=
  match ch with
  | DotMatrix c => WithSimilarityDotMatrix SimilarityDotMatrix c
  | Euclidean c => WithEuclideanDistance EuclideanDistance c
  | Manhattan c => WithManhattanDistance ManhattanDistance c
  | Jaccard c => WithJaccardSimilarity JaccardSimilarity c
  | Pearson c => WithPearsonCorrelation PearsonCorrelation c
  end.

(** The (similarity function, coefficient) pair of a choice. *)
Definition pairOf (ch : choice) : biFuncCoefficient :=
  match ch with
  | DotMatrix c => {| Func := SimilarityDotMatrix; Coefficient := c |}
  | Euclidean c => {| Func := EuclideanDistance; Coefficient := c |}
  | Manhattan c => {| Func := ManhattanDistance; Coefficient := c |}
  | Jaccard c => {| Func := JaccardSimilarity; Coefficient := c |}
  | Pearson c => {| Func := PearsonCorrelation; Coefficient := c |}
  end.

End Choices.

(** ** What construction hands to the store *)

(** [stored SetEmbedding encoder u u']: [u'] is the utterance [u] after the
    encoder's vector for its text has been set on it. *)
Definition stored {E : Type} `{!Encoder E}
    (SetEmbedding : Utterance → list float64 → result Utterance)
    (encoder : E) (u u' : Utterance) : Prop :=
  ∃ en, Encode encoder (Text u) = Ok en ∧ SetEmbedding u en = Ok u'.

(** [SetEmbedding] attaches: it keeps the text and sets the embedding. *)
Definition attaches
    (SetEmbedding : Utterance → list float64 → result Utterance) : Prop :=
  ∀ u en u', SetEmbedding u en = Ok u' → Text u' = Text u ∧ Embed u' = en.

(** ** Runs of calls on the in-memory store *)

(** [c] does not close the store. *)
Definition staysOpen (c : memory.call) : Prop :=
  match c with
  | memory.CallClose => False
  | _ => True
  end.

(** What [c] writes under the key [k], if anything. *)
Definition writes (k : string) (c : memory.call) : option (list float64) :=
  match c with
  | memory.CallSet u => if String.eqb (Text u) k then Some (Embed u) else None
  | _ => None
  end.

(** The embedding of the last [Set] under the key [k] in the run [cs]. *)
Fixpoint lastSet (k : string) (cs : list memory.call)
    : option (list float64) :=
  match cs with
  | [] => None
  | c :: cs' =>
      match lastSet k cs' with
      | Some e => Some e
      | None => writes k c
      end
  end.

(** ** What [Match] reads of a candidate *)

(** The name of the route and the text of the utterance. *)
Definition keyOf (c : candidate) : string * string :=
  (fst c, Text (snd c)).

(** * Properties *)

(** ** Order of float64 *)

Lemma gt_irrefl (x : float64) : gt x x = false.
Proof.
  unfold gt, SFltb, SFcompare.
  destruct x as [s | s | | s m e]; try destruct s; try reflexivity;
    rewrite Z.compare_refl, Pos.compare_cont_refl; reflexivity.
Qed.

Lemma gt_trans (x y z : float64) :
  gt x y = true → gt y z = true → gt x z = true.
Proof.
  unfold gt, SFltb, SFcompare.
  destruct x as [sx | sx | | sx mx ex], y as [sy | sy | | sy my ey],
    z as [sz | sz | | sz mz ez];
    repeat match goal with s : bool |- _ => destruct s end;
    simpl; try congruence.
  all: rewrite ?Pos.compare_cont_spec; simpl.
  all: destruct (Z.compare_spec ez ey), (Z.compare_spec ey ex),
         (Z.compare_spec ez ex); simpl; try congruence; try lia.
  all: subst; destruct (Pos.compare_spec mz my), (Pos.compare_spec my mx),
         (Pos.compare_spec mz mx); simpl; try congruence; try lia.
Qed.

(** A score that does not beat the running best does not beat a better
    one either. *)
Lemma gt_false_mono (s old new : float64) :
  gt s old = false → gt new old = true → gt s new = false.
Proof.
  intros Hs Hnew. destruct (gt s new) eqn:Hsn; [| reflexivity].
  rewrite (gt_trans s new old Hsn Hnew) in Hs. discriminate.
Qed.

(** ** The in-memory store *)

Section MemoryStore.

Import memory.

Lemma Get_Ok (s : Store) (k : string) (e : list float64) :
  Get s k = Ok e ↔ ∃ m, store s = Some m ∧ m !! k = Some e.
Proof.
  unfold Get. destruct s as [[m |]]; simpl.
  - destruct (m !! k) as [v |] eqn:Hk; split.
    + intros [= ->]. eauto.
    + intros (m' & [= <-] & Hm). congruence.
    + discriminate.
    + intros (m' & [= <-] & Hm). congruence.
  - split; [discriminate | intros (m & Hm & _); discriminate].
Qed.

Lemma Get_Err (s : Store) (k : string) :
  Get s k = Err (ErrorfNil "key does not exist: ")
  ↔ store s ≫= (.!! k) = None.
Proof.
  unfold Get. destruct (store s ≫= (.!! k)); split; congruence.
Qed.

(** A call that keeps the key [k] leaves what [Get] answers for [k]. *)
Lemma run_call_keeps (k : string) (e : list float64) (c : call)
    (s s' : Store) :
  keeps k c → run_call c s = Some s' → Get s k = Ok e → Get s' k = Ok e.
Proof.
  destruct c as [k' | u |]; simpl; intros Hkeep Hrun Hget.
  - congruence.
  - apply Get_Ok in Hget as (m & Hm & Hk).
    unfold Set_ in Hrun. rewrite Hm in Hrun. simpl in Hrun.
    injection Hrun as <-. apply Get_Ok. eexists. split; [reflexivity |].
    rewrite lookup_insert_ne; done.
  - contradiction.
Qed.

Lemma run_keeps (k : string) (e : list float64) (cs : list call) :
  ∀ s s', Forall (keeps k) cs → run cs s = Some s' →
          Get s k = Ok e → Get s' k = Ok e.
Proof.
  induction cs as [| c cs IH]; simpl; intros s s' Hall Hrun Hget.
  - congruence.
  - apply Forall_cons in Hall as [Hc Hcs].
    destruct (run_call c s) as [s1 |] eqn:Hstep; [| discriminate].
    simpl in Hrun. eapply IH; eauto using run_call_keeps.
Qed.

(** A call that does not write under [k] leaves [k] without a value. *)
Lemma run_call_never_sets (k : string) (c : call) (s s' : Store) :
  never_sets k c → run_call c s = Some s' →
  store s ≫= (.!! k) = None → store s' ≫= (.!! k) = None.
Proof.
  destruct c as [k' | u |]; simpl; intros Hnever Hrun Hnone.
  - congruence.
  - unfold Set_ in Hrun. destruct (store s) as [m |] eqn:Hm; [| discriminate].
    simpl in *. injection Hrun as <-. simpl.
    rewrite lookup_insert_ne; done.
  - injection Hrun as <-. unfold Close.
    destruct (store s) eqn:Hm; simpl; [reflexivity |].
    rewrite Hm. reflexivity.
Qed.

Lemma run_never_sets (k : string) (cs : list call) :
  ∀ s s', Forall (never_sets k) cs → run cs s = Some s' →
          store s ≫= (.!! k) = None → store s' ≫= (.!! k) = None.
Proof.
  induction cs as [| c cs IH]; simpl; intros s s' Hall Hrun Hnone.
  - congruence.
  - apply Forall_cons in Hall as [Hc Hcs].
    destruct (run_call c s) as [s1 |] eqn:Hstep; [| discriminate].
    simpl in Hrun. eapply IH; eauto using run_call_never_sets.
Qed.

End MemoryStore.

(** C10.  In-memory store: on an open store, a [Set] of an utterance with
    text [k] and embedding [e] returns and returns no error, and, followed
    by calls that neither close the store nor write under [k], it makes
    [Get k] return exactly [e] and no error; and on a store coming from
    [NewStore] by calls none of which is a [Set] under [k], [Get k] returns
    an error. *)
Theorem memory_Set_then_Get :
  (∀ (s : memory.Store) (m : gmap string (list float64)) (u : Utterance),
     memory.store s = Some m →
     ∃ s1 : memory.Store,
       memory.Set_ s u = Some (s1, None)
       ∧ memory.Get s1 (Text u) = Ok (Embed u)
       ∧ ∀ (cs : list memory.call) (s2 : memory.Store),
           Forall (memory.keeps (Text u)) cs →
           memory.run cs s1 = Some s2 →
           memory.Get s2 (Text u) = Ok (Embed u))
  ∧ (∀ (k : string) (cs : list memory.call) (s : memory.Store),
       Forall (memory.never_sets k) cs →
       memory.run cs memory.NewStore = Some s →
       memory.Get s k = Err (ErrorfNil "key does not exist: ")).
Proof.
  split.
  - intros s m u Hopen.
    exists {| memory.store := Some (<[Text u := Embed u]> m) |}.
    assert (memory.Get
              {| memory.store := Some (<[Text u := Embed u]> m) |} (Text u)
            = Ok (Embed u)) as Hget.
    { apply Get_Ok. eexists. split; [reflexivity |]. apply lookup_insert_eq. }
    split; [| split; [exact Hget |]].
    + unfold memory.Set_. by rewrite Hopen.
    + intros cs s2 Hkeep Hrun. eapply run_keeps; eauto.
  - intros k cs s Hnever Hrun. apply Get_Err.
    eapply run_never_sets; eauto.
Qed.

Lemma memory_Set_then_Get_witness :
  memory.Get
    {| memory.store :=
         Some (<["yo" := [zero]]> (<["hi" := [one]]> ∅)) |} "hi"
  = Ok [one]
  ∧ memory.Get {| memory.store := None |} "hi"
    = Err (ErrorfNil "key does not exist: ").
Proof.
  destruct memory_Set_then_Get as [Hset Hnever]. split.
  - destruct (Hset memory.NewStore ∅ {| Text := "hi"; Embed := [one] |}
                eq_refl) as (s1 & Hs1 & _ & Hget).
    apply (Hget [memory.CallSet {| Text := "yo"; Embed := [zero] |};
                 memory.CallGet "hi"]).
    + repeat constructor. simpl. discriminate.
    + injection Hs1 as <-. reflexivity.
  - apply (Hnever "hi"
             [memory.CallSet {| Text := "yo"; Embed := [zero] |};
              memory.CallClose]).
    + repeat constructor. simpl. discriminate.
    + reflexivity.
Defined.

(** ** The score *)

Lemma accumulate_foldl (fns : list biFuncCoefficient)
    (queryVec indexVec : VecDense) :
  ∀ score, accumulate fns queryVec indexVec score
           = foldl add score (weightedTerms fns queryVec indexVec).
Proof.
  induction fns as [| fn fns IH]; intros score; simpl.
  - reflexivity.
  - apply IH.
Qed.

(** C5.  The score of a candidate is the sum, over the configured weighted
    metrics in the order of the list, of the coefficient times the metric
    applied to the query vector and the candidate vector. *)
Theorem computeScore_weighted_sum {E S : Type} (r : Router E S)
    (queryVec indexVec : VecDense) :
  computeScore r queryVec indexVec
  = sumInOrder (weightedTerms (biFuncCoefficients r) queryVec indexVec).
Proof.
  unfold computeScore, sumInOrder. apply accumulate_foldl.
Qed.

(** The scenario of the design document: query [[1,0]], candidate [[1,0]],
    dot product with coefficient [1.0] and a distance that is [0.0] there
    with coefficient [-0.5]: the score is [1.0]. *)
Example computeScore_two_metrics :
  computeScore
    (fixtures.router [] []
       [fixtures.dot one;
        {| Func := fixtures.ManhattanDistance;
           Coefficient := S754_finite true 4503599627370496 (-53) |}])
    [one; zero] [one; zero]
  = one.
Proof. vm_compute. reflexivity. Qed.

(** ** Options *)

Section OptionsAppend.

Context {E S : Type}.

Variables SimilarityDotMatrix EuclideanDistance ManhattanDistance
          JaccardSimilarity PearsonCorrelation
  : VecDense → VecDense → float64.

Abbreviation optionOf' :=
  (optionOf (E := E) (S := S) SimilarityDotMatrix EuclideanDistance
     ManhattanDistance JaccardSimilarity PearsonCorrelation).

Abbreviation pairOf' :=
  (pairOf SimilarityDotMatrix EuclideanDistance ManhattanDistance
     JaccardSimilarity PearsonCorrelation).

(** Each option appends its own pair and leaves the rest of the router. *)
Lemma optionOf_appended (ch : choice) (r : Router E S) :
  optionOf' ch r = appended r (pairOf' ch).
Proof. destruct ch; reflexivity. Qed.

(** Applied one after the other, options append their pairs in the order
    they are given. *)
Lemma applyOptions_appends (chs : list choice) :
  ∀ r : Router E S,
    biFuncCoefficients (applyOptions (optionOf' <$> chs) r)
    = (biFuncCoefficients r ++ (pairOf' <$> chs))%list.
Proof.
  unfold applyOptions.
  induction chs as [| ch chs IH]; intros r; simpl.
  - by rewrite app_nil_r.
  - rewrite IH, optionOf_appended. simpl. by rewrite <- app_assoc.
Qed.

End OptionsAppend.

(** ** Construction *)

Section ConstructionFacts.

Context {E S : Type} `{!Encoder E} `{!Store S}.

Variable SetEmbedding : Utterance → list float64 → result Utterance.

Abbreviation embedUtterances := (embedUtterances SetEmbedding).
Abbreviation embedRoutes := (embedRoutes SetEmbedding).
Abbreviation NewRouter := (NewRouter SetEmbedding).

Lemma embedUtterances_app (encoder : E) (us1 us2 : list Utterance) :
  ∀ w, embedUtterances encoder (us1 ++ us2)%list w
       = match embedUtterances encoder us1 w with
         | (w', Some err) => (w', Some err)
         | (w', None) => embedUtterances encoder us2 w'
         end.
Proof.
  induction us1 as [| u us1 IH]; intros w; simpl.
  - reflexivity.
  - destruct (Encode encoder (Text u)) as [en | err]; [| reflexivity].
    destruct (SetEmbedding u en) as [u' | err]; [| reflexivity].
    destruct (StoreUtterance w.1 u') as [store' [err |]]; [reflexivity |].
    apply IH.
Qed.

(** The two loops of [NewRouter] are one loop over all the utterances. *)
Lemma embedRoutes_flat (encoder : E) (routes : list Route) :
  ∀ w, embedRoutes encoder routes w
       = embedUtterances encoder (allUtterances routes) w.
Proof.
  induction routes as [| route routes IH]; intros w.
  - reflexivity.
  - change (allUtterances (route :: routes))
      with (Utterances route ++ allUtterances routes)%list.
    rewrite embedUtterances_app. simpl.
    destruct (embedUtterances encoder (Utterances route) w) as [w' [err |]];
      [reflexivity | apply IH].
Qed.

(** When the loop runs to its end, every utterance has been handed to the
    store, in order, with the encoder's vector set on it. *)
Lemma embedUtterances_done (encoder : E) (utters : list Utterance) :
  ∀ w w', embedUtterances encoder utters w = (w', None) →
          ∃ ws, snd w' = (snd w ++ ws)%list
                ∧ Forall2 (stored SetEmbedding encoder) utters ws.
Proof.
  induction utters as [| u utters IH]; simpl; intros w w' Hrun.
  - injection Hrun as <-. exists []. by rewrite app_nil_r.
  - destruct (Encode encoder (Text u)) as [en | err] eqn:Hen; [| discriminate].
    destruct (SetEmbedding u en) as [u' | err] eqn:Hset; [| discriminate].
    destruct (StoreUtterance w.1 u') as [store' [err |]]; [discriminate |].
    apply IH in Hrun as (ws & Hlog & Hws). simpl in Hlog.
    exists (u' :: ws). split.
    + by rewrite Hlog, <- app_assoc.
    + constructor; [by exists en | done].
Qed.

(** When the loop stops at an utterance, the utterances before it have
    been handed to the store, that one at most has been handed after them,
    and none of the later ones. *)
Lemma embedUtterances_stopped (encoder : E) (utters : list Utterance) :
  ∀ w w' err,
    embedUtterances encoder utters w = (w', Some err) →
    ∃ before u after ws,
      utters = (before ++ u :: after)%list
      ∧ Forall2 (stored SetEmbedding encoder) before ws
      ∧ ((∃ cause,
            (Encode encoder (Text u) = Err cause
             ∨ ∃ en, Encode encoder (Text u) = Ok en
                     ∧ SetEmbedding u en = Err cause)
            ∧ err = Errorf "error encoding utterance: " cause
            ∧ snd w' = (snd w ++ ws)%list)
         ∨ (∃ u' cause,
              stored SetEmbedding encoder u u'
              ∧ err = Errorf ("error storing utterance: "
                              +:+ Text u' +:+ ": ") cause
              ∧ snd w' = (snd w ++ ws ++ [u'])%list)).
Proof.
  induction utters as [| u utters IH]; simpl; intros w w' err Hrun.
  - discriminate.
  - destruct (Encode encoder (Text u)) as [en | cause] eqn:Hen.
    2: { injection Hrun as <- <-. exists [], u, utters, []. simpl.
         split; [done |]. split; [constructor |]. left. exists cause.
         by rewrite app_nil_r; auto. }
    destruct (SetEmbedding u en) as [u' | cause] eqn:Hset.
    2: { injection Hrun as <- <-. exists [], u, utters, []. simpl.
         split; [done |]. split; [constructor |]. left. exists cause.
         rewrite app_nil_r. split; [right; eauto | done]. }
    destruct (StoreUtterance w.1 u') as [store' [cause |]] eqn:Hput.
    + injection Hrun as <- <-. exists [], u, utters, []. simpl.
      split; [done |]. split; [constructor |]. right. exists u', cause.
      split; [by exists en | done].
    + apply IH in Hrun as (before & v & after & ws & -> & Hws & Hcase).
      simpl in Hcase.
      exists (u :: before), v, after, (u' :: ws). split; [done |].
      split; [constructor; [by exists en | done] |].
      destruct Hcase as [(cause & Hwhy & -> & Hlog)
                        | (v' & cause & Hv & -> & Hlog)].
      * left. exists cause. repeat split; [done |].
        by rewrite Hlog, <- app_assoc.
      * right. exists v', cause. repeat split; [done |].
        by rewrite Hlog, <- app_assoc.
Qed.

(** A router that [NewRouter] returns has the routes it was given and an
    empty list of weighted functions, whatever the options. *)
Lemma NewRouter_returns (routes : list Route) (encoder : E) (store : S)
    (opts : list (Option E S)) (w : world) (r : Router E S) :
  NewRouter routes encoder store opts = (w, Ok r) →
  r = {| Routes := routes; RouterEncoder := encoder; Storage := fst w;
         biFuncCoefficients := [] |}
  ∧ embedUtterances encoder (allUtterances routes) (store, []) = (w, None).
Proof.
  unfold NewRouter. rewrite embedRoutes_flat.
  destruct (embedUtterances encoder (allUtterances routes) (store, []))
    as [w0 [err |]]; [discriminate |].
  intros [= <- <-]. done.
Qed.

(** C2 (amended).  After a successful [NewRouter], the routes of the router
    are the routes as they were given, the embedding fields of their
    utterances unchanged, and the store has been handed, for every utterance
    in route order then utterance order, a copy with the same text that
    carries the vector the encoder produced for that text. *)
Theorem NewRouter_routes_as_given (routes : list Route) (encoder : E)
    (store : S) (opts : list (Option E S)) (w : world) (r : Router E S) :
  attaches SetEmbedding →
  NewRouter routes encoder store opts = (w, Ok r) →
  Routes r = routes
  ∧ Forall2 (fun u u' => Text u' = Text u
                         ∧ Encode encoder (Text u) = Ok (Embed u'))
      (allUtterances routes) (snd w).
Proof.
  intros Hattach Hnew.
  apply NewRouter_returns in Hnew as [-> Hrun]. split; [reflexivity |].
  apply embedUtterances_done in Hrun as (ws & -> & Hws). simpl.
  eapply Forall2_impl; [exact Hws |].
  intros u u' (en & Hen & Hset).
  destruct (Hattach u en u' Hset) as [Htext Hembed]. by subst.
Qed.

(** When [NewRouter] fails, no router is returned (the result is an error
    alone) and the store has been handed nothing for the utterances after
    the one at which construction stopped. *)
Lemma NewRouter_stopped (routes : list Route) (encoder : E) (store : S)
    (opts : list (Option E S)) (w : world) (err : error) :
  NewRouter routes encoder store opts = (w, Err err) →
  ∃ before u after ws,
    allUtterances routes = (before ++ u :: after)%list
    ∧ Forall2 (stored SetEmbedding encoder) before ws
    ∧ (snd w = ws ∨ ∃ u', stored SetEmbedding encoder u u'
                          ∧ snd w = (ws ++ [u'])%list).
Proof.
  unfold NewRouter. rewrite embedRoutes_flat.
  destruct (embedUtterances encoder (allUtterances routes) (store, []))
    as [w0 [e |]] eqn:Hrun; [| discriminate].
  intros [= <- <-].
  apply embedUtterances_stopped in Hrun
    as (before & u & after & ws & Hsplit & Hws & Hcase).
  exists before, u, after, ws. repeat split; [done.. |].
  destruct Hcase as [(cause & _ & _ & Hlog) | (u' & cause & Hu & _ & Hlog)].
  - by left.
  - right. by exists u'.
Qed.

End ConstructionFacts.

Lemma NewRouter_routes_as_given_witness :
  let st := {| fixtures.cells := <["hi" := [one; zero; zero]]> ∅;
               fixtures.refused := [] |} in
  let r := {| Routes := [fixtures.chitchat];
              RouterEncoder := fixtures.hiEncoder;
              Storage := st;
              biFuncCoefficients := [] |} in
  Routes r = [fixtures.chitchat]
  ∧ Forall2 (fun u u' => Text u' = Text u
                         ∧ Encode fixtures.hiEncoder (Text u) = Ok (Embed u'))
      (allUtterances [fixtures.chitchat])
      [{| Text := "hi"; Embed := [one; zero; zero] |}].
Proof.
  intros st r.
  apply (NewRouter_routes_as_given fixtures.attachEmbedding
           [fixtures.chitchat] fixtures.hiEncoder fixtures.emptyStore []
           (st, [{| Text := "hi"; Embed := [one; zero; zero] |}]) r).
  - intros u en u' [= <-]. split; reflexivity.
  - vm_compute. reflexivity.
Defined.

(** C2, as stated, fails: [NewRouter] succeeds on one route with the one
    utterance ["hi"], the encoder produces [[1,0,0]] for that text, and the
    utterance inside the returned router still has no embedding. *)
Lemma NewRouter_routes_keep_no_embedding :
  ∃ w r,
    NewRouter fixtures.attachEmbedding [fixtures.chitchat] fixtures.hiEncoder
      fixtures.emptyStore [] = (w, Ok r)
    ∧ Encode fixtures.hiEncoder "hi" = Ok [one; zero; zero]
    ∧ Embed <$> allUtterances (Routes r) = [[]]
    ∧ ¬ Forall (fun u => Encode fixtures.hiEncoder (Text u) = Ok (Embed u))
          (allUtterances (Routes r)).
Proof.
  eexists _, _. split; [reflexivity |]. split; [reflexivity |].
  split; [reflexivity |].
  intros Hall. apply Forall_cons in Hall as [Hhi _]. discriminate Hhi.
Qed.

(** C1, at a failing input: [NewRouter] is given the options
    [WithSimilarityDotMatrix(1.0)] and [WithManhattanDistance(0.9)]; the
    router it returns has an empty list of weighted functions, where the
    two options, applied to that router, give the two pairs in order. *)
Theorem NewRouter_drops_options :
  let opts : list (Option fixtures.TableEncoder fixtures.MapStore) :=
    [WithSimilarityDotMatrix fixtures.SimilarityDotMatrix one;
     WithManhattanDistance fixtures.ManhattanDistance nine_tenths] in
  let st := {| fixtures.cells := <["hi" := [one; zero; zero]]> ∅;
               fixtures.refused := [] |} in
  let r := {| Routes := [fixtures.chitchat];
              RouterEncoder := fixtures.hiEncoder;
              Storage := st;
              biFuncCoefficients := [] |} in
  NewRouter fixtures.attachEmbedding [fixtures.chitchat] fixtures.hiEncoder
    fixtures.emptyStore opts
  = ((st, [{| Text := "hi"; Embed := [one; zero; zero] |}]), Ok r)
  ∧ biFuncCoefficients r = []
  ∧ biFuncCoefficients (applyOptions opts r)
    = [{| Func := fixtures.SimilarityDotMatrix; Coefficient := one |};
       {| Func := fixtures.ManhattanDistance; Coefficient := nine_tenths |}].
Proof.
  intros opts st r. split; [vm_compute; reflexivity |].
  split; reflexivity.
Qed.

(** C3, at a failing input: two routes, five utterances, the encoder fails
    on the third, ["gamma"].  No router is returned and only the first two
    utterances have reached the store, but the failure is the cause under a
    fixed prefix: the text ["gamma"] is nowhere in it.  When it is the store
    that fails on the same utterance, the failure does carry the text. *)
Theorem NewRouter_encoding_failure_omits_text :
  let failed :=
    NewRouter fixtures.attachEmbedding [fixtures.politics; fixtures.weather]
      fixtures.thirdFails fixtures.emptyStore [] in
  let refused :=
    NewRouter fixtures.attachEmbedding [fixtures.politics; fixtures.weather]
      fixtures.allFive fixtures.refusesThird [] in
  snd failed
  = Err (Errorf "error encoding utterance: "
           (ErrorString "encoder: backend unavailable"))
  ∧ snd (fst failed)
    = [{| Text := "alpha"; Embed := [one; zero] |};
       {| Text := "beta"; Embed := [zero; one] |}]
  ∧ mentions "gamma"
      (Errorf "error encoding utterance: "
         (ErrorString "encoder: backend unavailable")) = false
  ∧ snd refused
    = Err (Errorf "error storing utterance: gamma: "
             (ErrorString "store: write refused"))
  ∧ mentions "gamma"
      (Errorf "error storing utterance: gamma: "
         (ErrorString "store: write refused")) = true.
Proof.
  intros failed refused. repeat split; vm_compute; reflexivity.
Qed.

(** An encoding failure is reported by the cause alone: whatever the text
    of the utterance the encoder fails on, the failure is the same. *)
Lemma encoding_failure_same_for_all_texts {E S : Type} `{!Encoder E}
    `{!Store S} (SetEmbedding : Utterance → list float64 → result Utterance)
    (encoder : E) (store : S) (name : string) (u1 u2 : Utterance)
    (cause : error) :
  Encode encoder (Text u1) = Err cause →
  Encode encoder (Text u2) = Err cause →
  snd (NewRouter SetEmbedding [{| Name := name; Utterances := [u1] |}]
         encoder store [])
  = snd (NewRouter SetEmbedding [{| Name := name; Utterances := [u2] |}]
           encoder store []).
Proof.
  intros H1 H2. unfold NewRouter. simpl. by rewrite H1, H2.
Qed.

(** ** Matching *)

Lemma NewVecDense_data (data : list float64) :
  data ≠ [] → NewVecDense (length data) data = Some data.
Proof.
  destruct data as [| x data]; [done |]. intros _. simpl.
  by rewrite Nat.eqb_refl.
Qed.

Lemma NewVecDense_length (data v : list float64) :
  NewVecDense (length data) data = Some v → v = data ∧ data ≠ [].
Proof.
  destruct data as [| x data]; simpl; [discriminate |].
  rewrite Nat.eqb_refl. by intros [= <-].
Qed.

Section MatchingFacts.

Context {E S : Type} `{!Encoder E} `{!Store S}.

Variable r : Router E S.
Variable queryVec : VecDense.

Lemma scanStep_eq (c : candidate) (b : best) :
  scanStep r queryVec c b
  = match Get (Storage r) (Text (snd c)) with
    | Err _ =>
        Raise (ErrGetEmbedding ("error getting embedding: " +:+ Text (snd c)))
    | Ok em =>
        if negb (Nat.eqb (length em) (length queryVec)) then Value b
        else match NewVecDense (length em) em with
             | None => Panic
             | Some indexVec => Value (turn r queryVec c indexVec b)
             end
    end.
Proof.
  unfold scanStep, turn. simpl.
  destruct (Get (Storage r) (Text c.2)) as [em | err]; [| reflexivity].
  unfold Len. destruct (negb (Nat.eqb (length em) (length queryVec))); [reflexivity |].
  destruct (NewVecDense (length em) em); reflexivity.
Qed.

Lemma scanUtterances_cons (name : string) (ut : Utterance)
    (rest : list Utterance) (b : best) :
  scanUtterances r queryVec name (ut :: rest) b
  = match scanStep r queryVec (name, ut) b with
    | Value b' => scanUtterances r queryVec name rest b'
    | stopped => stopped
    end.
Proof.
  rewrite scanStep_eq. unfold turn. simpl.
  destruct (Get (Storage r) (Text ut)) as [em | err]; [| reflexivity].
  unfold Len. destruct (negb (Nat.eqb (length em) (length queryVec))); [reflexivity |].
  destruct (NewVecDense (length em) em); reflexivity.
Qed.

Lemma scanUtterances_candidates (name : string) (uts : list Utterance) :
  ∀ b, scanUtterances r queryVec name uts b
       = scanCandidates r queryVec ((fun ut => (name, ut)) <$> uts) b.
Proof.
  induction uts as [| ut uts IH]; intros b.
  - reflexivity.
  - rewrite scanUtterances_cons. simpl.
    destruct (scanStep r queryVec (name, ut) b); auto.
Qed.

Lemma scanCandidates_app (cs1 cs2 : list candidate) :
  ∀ b, scanCandidates r queryVec (cs1 ++ cs2)%list b
       = match scanCandidates r queryVec cs1 b with
         | Value b' => scanCandidates r queryVec cs2 b'
         | stopped => stopped
         end.
Proof.
  induction cs1 as [| c cs1 IH]; intros b; simpl.
  - reflexivity.
  - destruct (scanStep r queryVec c b); auto.
Qed.

(** The two loops of [Match] are one loop over the candidates. *)
Lemma scanRoutes_candidates (routes : list Route) :
  ∀ b, scanRoutes r queryVec routes b
       = scanCandidates r queryVec (candidates routes) b.
Proof.
  induction routes as [| route routes IH]; intros b.
  - reflexivity.
  - change (candidates (route :: routes))
      with (candidatesOf route ++ candidates routes)%list.
    rewrite scanCandidates_app. simpl.
    rewrite scanUtterances_candidates. fold (candidatesOf route).
    destruct (scanCandidates r queryVec (candidatesOf route) b); auto.
Qed.

(** A turn that goes through: the embedding was retrieved, and the running
    best is either kept (other length) or taken through [turn]. *)
Lemma scanStep_Value (c : candidate) (b b' : best) :
  scanStep r queryVec c b = Value b' →
  ∃ em, Get (Storage r) (Text (snd c)) = Ok em
        ∧ ((length em ≠ length queryVec ∧ b' = b)
           ∨ (length em = length queryVec ∧ b' = turn r queryVec c em b)).
Proof.
  rewrite scanStep_eq.
  destruct (Get (Storage r) (Text c.2)) as [em | err]; [| discriminate].
  intros Hstep. exists em. split; [reflexivity |].
  destruct (Nat.eqb_spec (length em) (length queryVec)) as [Hlen | Hlen];
    simpl in Hstep.
  - right. split; [done |].
    destruct (NewVecDense (length em) em) as [v |] eqn:Hv; [| discriminate].
    apply NewVecDense_length in Hv as [-> _]. congruence.
  - left. split; [done | congruence].
Qed.

Lemma scanStep_other_length (c : candidate) (em : list float64) (b : best) :
  Get (Storage r) (Text (snd c)) = Ok em →
  length em ≠ length queryVec →
  scanStep r queryVec c b = Value b.
Proof.
  intros Hget Hlen. rewrite scanStep_eq, Hget.
  by destruct (Nat.eqb_spec (length em) (length queryVec)).
Qed.

Lemma scanStep_same_length (c : candidate) (em : list float64) (b : best) :
  Get (Storage r) (Text (snd c)) = Ok em →
  length em = length queryVec →
  queryVec ≠ [] →
  scanStep r queryVec c b = Value (turn r queryVec c em b).
Proof.
  intros Hget Hlen Hq. rewrite scanStep_eq, Hget.
  destruct (Nat.eqb_spec (length em) (length queryVec)); [simpl | done].
  rewrite NewVecDense_data; [done |].
  intros ->. destruct queryVec; [done | discriminate].
Qed.

(** The running best changes only for a strictly greater score. *)
Lemma turn_changes (c : candidate) (em : list float64) (b : best) :
  turn r queryVec c em b ≠ b →
  gt (computeScore r queryVec em) (snd b) = true
  ∧ turn r queryVec c em b = (fst c, computeScore r queryVec em).
Proof.
  unfold turn. destruct (gt (computeScore r queryVec em) b.2); done.
Qed.

(** A score that does not beat the running best never beats it later. *)
Lemma turn_keeps_unbeaten (s : float64) (c : candidate) (em : list float64)
    (b : best) :
  gt s (snd b) = false → gt s (snd (turn r queryVec c em b)) = false.
Proof.
  unfold turn. intros Hs.
  destruct (gt (computeScore r queryVec em) b.2) eqn:Hgt; [simpl | done].
  eauto using gt_false_mono.
Qed.

Lemma scanCandidates_keeps_unbeaten (s : float64) (cs : list candidate) :
  ∀ b b', scanCandidates r queryVec cs b = Value b' →
          gt s (snd b) = false → gt s (snd b') = false.
Proof.
  induction cs as [| c cs IH]; simpl; intros b b' Hscan Hs.
  - congruence.
  - destruct (scanStep r queryVec c b) as [| | b1] eqn:Hstep;
      try discriminate.
    apply scanStep_Value in Hstep as (em & _ & [[_ ->] | [_ ->]]);
      eauto using turn_keeps_unbeaten.
Qed.

(** After the scan of [cs], no scored candidate of [cs] beats the running
    best. *)
Lemma scanCandidates_unbeaten (cs : list candidate) :
  ∀ b b' c em,
    scanCandidates r queryVec cs b = Value b' →
    c ∈ cs →
    Get (Storage r) (Text (snd c)) = Ok em →
    length em = length queryVec →
    gt (computeScore r queryVec em) (snd b') = false.
Proof.
  induction cs as [| c0 cs IH]; simpl; intros b b' c em Hscan Hin Hget Hlen.
  - by apply elem_of_nil in Hin.
  - destruct (scanStep r queryVec c0 b) as [| | b1] eqn:Hstep;
      try discriminate.
    apply elem_of_cons in Hin as [-> | Hin]; [| eauto].
    eapply scanCandidates_keeps_unbeaten; [exact Hscan |].
    apply scanStep_Value in Hstep as (em' & Hget' & Hcase).
    rewrite Hget in Hget'. injection Hget' as <-.
    destruct Hcase as [[Hne _] | [_ ->]]; [done |].
    unfold turn. destruct (gt (computeScore r queryVec em) b.2) eqn:Hgt;
      [apply gt_irrefl | done].
Qed.

(** A candidate whose turn never changes the running best can be left out
    of the scan. *)
Lemma scanCandidates_drop (before after : list candidate) (c : candidate)
    (b : best) :
  (∀ b', scanCandidates r queryVec before b = Value b' →
         scanStep r queryVec c b' = Value b') →
  scanCandidates r queryVec (before ++ c :: after)%list b
  = scanCandidates r queryVec (before ++ after)%list b.
Proof.
  intros Hskip. rewrite !scanCandidates_app.
  destruct (scanCandidates r queryVec before b) as [| | b'] eqn:Hscan;
    try reflexivity.
  simpl. by rewrite (Hskip b').
Qed.

(** When every embedding is retrieved and the query vector is not empty,
    the scan runs to its end. *)
Lemma scanCandidates_runs (cs : list candidate) :
  queryVec ≠ [] →
  (∀ c, c ∈ cs → ∃ em, Get (Storage r) (Text (snd c)) = Ok em) →
  ∀ b, ∃ b', scanCandidates r queryVec cs b = Value b'.
Proof.
  intros Hq. induction cs as [| c cs IH]; simpl; intros Hall b.
  - by exists b.
  - destruct (Hall c) as [em Hget]; [by left |].
    assert (∃ b1, scanStep r queryVec c b = Value b1) as [b1 ->].
    { destruct (decide (length em = length queryVec)) as [Hlen | Hlen].
      - eexists. by apply scanStep_same_length with (em := em).
      - eexists. by apply scanStep_other_length with (em := em). }
    apply IH. intros c' Hc'. apply Hall. by right.
Qed.

(** The scan stops at the first embedding that is not retrieved. *)
Lemma scanCandidates_retrieval_fails (before after : list candidate)
    (c : candidate) (cause : error) (b : best) :
  queryVec ≠ [] →
  (∀ c', c' ∈ before → ∃ em, Get (Storage r) (Text (snd c')) = Ok em) →
  Get (Storage r) (Text (snd c)) = Err cause →
  scanCandidates r queryVec (before ++ c :: after)%list b
  = Raise (ErrGetEmbedding ("error getting embedding: " +:+ Text (snd c))).
Proof.
  intros Hq Hall Hget. rewrite scanCandidates_app.
  destruct (scanCandidates_runs before Hq Hall b) as [b' ->]. simpl.
  by rewrite scanStep_eq, Hget.
Qed.

End MatchingFacts.

Section MatchFacts.

Context {E S : Type} `{!Encoder E} `{!Store S}.

Lemma scanCandidates_withRoutes (r : Router E S) (routes : list Route)
    (queryVec : VecDense) (cs : list candidate) :
  ∀ b, scanCandidates (withRoutes r routes) queryVec cs b
       = scanCandidates r queryVec cs b.
Proof.
  induction cs as [| c cs IH]; intros b; simpl.
  - reflexivity.
  - replace (scanStep (withRoutes r routes) queryVec c b)
      with (scanStep r queryVec c b) by (by rewrite !scanStep_eq).
    destruct (scanStep r queryVec c b); auto.
Qed.

(** [Match], once the query is encoded to a vector that is not empty, is
    the scan of the candidates followed by [finish]. *)
Lemma Match_encoded (r : Router E S) (utterance : string)
    (queryVec : list float64) :
  Encode (RouterEncoder r) utterance = Ok queryVec →
  queryVec ≠ [] →
  Match r utterance
  = finish utterance
      (scanCandidates r queryVec (candidates (Routes r)) ("", zero)).
Proof.
  intros Hen Hq. unfold Match, matchTask.
  rewrite Hen, NewVecDense_data, scanRoutes_candidates by done.
  destruct (scanCandidates r queryVec (candidates (Routes r)) ("", zero))
    as [| err | [name score]]; simpl; try reflexivity.
  destruct (String.eqb name ""); reflexivity.
Qed.

(** An empty vector from the encoder makes [Match] panic. *)
Lemma Match_empty_encoding (r : Router E S) (utterance : string) :
  Encode (RouterEncoder r) utterance = Ok [] → Match r utterance = None.
Proof. intros Hen. unfold Match, matchTask. by rewrite Hen. Qed.

(** Two route lists whose scans agree give the same [Match]. *)
Lemma Match_same_scan (r : Router E S) (routes : list Route)
    (utterance : string) :
  (∀ queryVec b,
     Encode (RouterEncoder r) utterance = Ok queryVec →
     scanCandidates r queryVec (candidates (Routes r)) b
     = scanCandidates r queryVec (candidates routes) b) →
  Match r utterance = Match (withRoutes r routes) utterance.
Proof.
  intros Hscan. unfold Match, matchTask. simpl.
  destruct (Encode (RouterEncoder r) utterance) as [enc | err] eqn:Hen;
    [| reflexivity].
  destruct (NewVecDense (length enc) enc) as [queryVec |] eqn:Hv;
    [| reflexivity].
  apply NewVecDense_length in Hv as [-> _].
  rewrite !scanRoutes_candidates, scanCandidates_withRoutes.
  by rewrite (Hscan enc ("", zero)).
Qed.

Lemma candidates_app (rs1 rs2 : list Route) :
  candidates (rs1 ++ rs2)%list = (candidates rs1 ++ candidates rs2)%list.
Proof. unfold candidates. apply bind_app. Qed.

Lemma candidates_split (rs1 rs2 : list Route) (name : string)
    (us1 us2 : list Utterance) (mid : list Utterance) :
  candidates (rs1 ++ {| Name := name;
                        Utterances := us1 ++ mid ++ us2 |} :: rs2)%list
  = (candidates (rs1 ++ [{| Name := name; Utterances := us1 |}])
     ++ ((fun ut => (name, ut)) <$> mid)
     ++ candidates ({| Name := name; Utterances := us2 |} :: rs2))%list.
Proof.
  rewrite !candidates_app.
  change (candidates ({| Name := name; Utterances := us1 ++ mid ++ us2 |}
                      :: rs2))
    with (((fun ut => (name, ut)) <$> (us1 ++ mid ++ us2))
          ++ candidates rs2)%list.
  change (candidates [{| Name := name; Utterances := us1 |}])
    with (((fun ut => (name, ut)) <$> us1) ++ [])%list.
  change (candidates ({| Name := name; Utterances := us2 |} :: rs2))
    with (((fun ut => (name, ut)) <$> us2) ++ candidates rs2)%list.
  rewrite !fmap_app, !app_nil_r, <- !app_assoc. reflexivity.
Qed.

(** Leaving one utterance out of a route whose turn never changes the
    running best leaves [Match] as it is. *)
Lemma Match_drop (r : Router E S) (utterance : string)
    (rs1 rs2 : list Route) (name : string) (us1 us2 : list Utterance)
    (ut : Utterance) :
  Routes r = (rs1 ++ {| Name := name;
                        Utterances := us1 ++ ut :: us2 |} :: rs2)%list →
  (∀ queryVec b b',
     Encode (RouterEncoder r) utterance = Ok queryVec →
     scanCandidates r queryVec
       (candidates (rs1 ++ [{| Name := name; Utterances := us1 |}])) b
     = Value b' →
     scanStep r queryVec (name, ut) b' = Value b') →
  Match r utterance
  = Match (withRoutes r (rs1 ++ {| Name := name;
                                   Utterances := us1 ++ us2 |} :: rs2))
      utterance.
Proof.
  intros Hroutes Hskip. apply Match_same_scan. intros queryVec b Hen.
  rewrite Hroutes.
  pose proof (candidates_split rs1 rs2 name us1 us2 [ut]) as Hwith.
  pose proof (candidates_split rs1 rs2 name us1 us2 []) as Hwithout.
  simpl in Hwith, Hwithout. rewrite Hwith, Hwithout.
  apply scanCandidates_drop. eauto.
Qed.

End MatchFacts.

(** C4.  In the scan of [Match] the running best changes only for a
    candidate whose score is strictly greater than the current best; and a
    candidate whose score is identical to the score of a candidate scanned
    before it never overwrites the running best, so that [Match] returns
    what it returns without that later candidate: of the two, the one
    scanned first wins. *)
Theorem Match_first_of_equal_scores_wins {E S : Type} `{!Encoder E}
    `{!Store S} (r : Router E S) (utterance : string) (queryVec : VecDense)
    (rs1 rs2 : list Route) (name : string) (us1 us2 : list Utterance)
    (ut : Utterance) (first : candidate) (em1 em2 : list float64) :
  Routes r = (rs1 ++ {| Name := name;
                        Utterances := us1 ++ ut :: us2 |} :: rs2)%list →
  Encode (RouterEncoder r) utterance = Ok queryVec →
  first ∈ candidates (rs1 ++ [{| Name := name; Utterances := us1 |}]) →
  Get (Storage r) (Text (snd first)) = Ok em1 →
  length em1 = length queryVec →
  Get (Storage r) (Text ut) = Ok em2 →
  length em2 = length queryVec →
  computeScore r queryVec em2 = computeScore r queryVec em1 →
  (∀ (c : candidate) (b b' : best),
     scanStep r queryVec c b = Value b' → b' ≠ b →
     ∃ em, Get (Storage r) (Text (snd c)) = Ok em
           ∧ gt (computeScore r queryVec em) (snd b) = true
           ∧ b' = (fst c, computeScore r queryVec em))
  ∧ (∀ b b' : best,
       scanCandidates r queryVec
         (candidates (rs1 ++ [{| Name := name; Utterances := us1 |}])) b
       = Value b' →
       scanStep r queryVec (name, ut) b' = Value b')
  ∧ Match r utterance
    = Match (withRoutes r (rs1 ++ {| Name := name;
                                     Utterances := us1 ++ us2 |} :: rs2))
        utterance.
Proof.
  intros Hroutes Hen Hfirst Hget1 Hlen1 Hget2 Hlen2 Htie.
  assert (∀ b b' : best,
            scanCandidates r queryVec
              (candidates (rs1 ++ [{| Name := name; Utterances := us1 |}])) b
            = Value b' →
            scanStep r queryVec (name, ut) b' = Value b') as Hkept.
  { intros b b' Hscan.
    pose proof (scanCandidates_unbeaten r queryVec _ b b' first em1
                  Hscan Hfirst Hget1 Hlen1) as Hunbeaten.
    rewrite scanStep_eq. simpl. rewrite Hget2, Hlen2, Nat.eqb_refl. simpl.
    destruct (NewVecDense (length queryVec) em2) as [v |] eqn:Hv.
    - rewrite <- Hlen2 in Hv. apply NewVecDense_length in Hv as [-> _].
      unfold turn. by rewrite Htie, Hunbeaten.
    - exfalso. rewrite <- Hlen2 in Hv.
      destruct em2 as [| x em2]; [| simpl in Hv;
                                    by rewrite Nat.eqb_refl in Hv].
      (* an empty query vector: the scan of [first] has panicked *)
      destruct em1 as [| y em1]; [| by rewrite <- Hlen2 in Hlen1].
      clear - Hscan Hfirst Hget1 Hlen2.
      revert b Hscan.
      induction (candidates (rs1 ++ [{| Name := name; Utterances := us1 |}]))
        as [| c cs IH]; intros b Hscan.
      + by apply elem_of_nil in Hfirst.
      + simpl in Hscan.
        destruct (scanStep r queryVec c b) as [| | b1] eqn:Hstep;
          try discriminate.
        apply elem_of_cons in Hfirst as [<- | Hin]; [| eauto].
        rewrite scanStep_eq, Hget1 in Hstep. simpl in Hstep.
        rewrite <- Hlen2 in Hstep. simpl in Hstep. discriminate. }
  split; [| split; [exact Hkept |]].
  - intros c b b' Hstep Hne.
    apply scanStep_Value in Hstep as (em & Hget & [[_ ->] | [_ ->]]);
      [done |].
    exists em. split; [done |]. by apply turn_changes.
  - eapply Match_drop; [exact Hroutes |].
    intros q b b' Hen' Hscan. rewrite Hen in Hen'. injection Hen' as <-.
    eauto.
Qed.

Lemma Match_first_of_equal_scores_wins_witness :
  let r := fixtures.router [fixtures.chitchat; fixtures.greetings]
             [("hi", [one; zero; zero]); ("hey", [one; zero; zero])]
             [fixtures.dot one] in
  Match r "hello" = Match (withRoutes r [fixtures.chitchat;
                                        {| Name := "greetings";
                                           Utterances := [] |}]) "hello".
Proof.
  intros r.
  refine (proj2 (proj2
    (Match_first_of_equal_scores_wins r "hello"
       [nine_tenths; one_tenth; zero]
       [fixtures.chitchat] [] "greetings" [] [] (fixtures.utterance "hey")
       ("chitchat", fixtures.utterance "hi")
       [one; zero; zero] [one; zero; zero] _ _ _ _ _ _ _ _))).
  - reflexivity.
  - reflexivity.
  - vm_compute. constructor.
  - vm_compute. reflexivity.
  - reflexivity.
  - vm_compute. reflexivity.
  - reflexivity.
  - vm_compute. reflexivity.
Defined.

(** The same scenario, run: both utterances score [0.9] against the query,
    and the route of the first one is returned. *)
Example Match_tie_returns_first :
  Match (fixtures.router [fixtures.chitchat; fixtures.greetings]
           [("hi", [one; zero; zero]); ("hey", [one; zero; zero])]
           [fixtures.dot one]) "hello"
  = Some ("chitchat", nine_tenths, None).
Proof. vm_compute. reflexivity. Qed.

(** C6.  A candidate whose stored embedding has another length than the
    query embedding is skipped without an error, whatever its components:
    its turn leaves the running best as it is, and [Match] returns the same
    route name and score as without that candidate. *)
Theorem Match_skips_other_length {E S : Type} `{!Encoder E} `{!Store S}
    (r : Router E S) (utterance : string) (queryVec : VecDense)
    (rs1 rs2 : list Route) (name : string) (us1 us2 : list Utterance)
    (ut : Utterance) (em : list float64) :
  Routes r = (rs1 ++ {| Name := name;
                        Utterances := us1 ++ ut :: us2 |} :: rs2)%list →
  Encode (RouterEncoder r) utterance = Ok queryVec →
  Get (Storage r) (Text ut) = Ok em →
  length em ≠ length queryVec →
  (∀ b : best, scanStep r queryVec (name, ut) b = Value b)
  ∧ Match r utterance
    = Match (withRoutes r (rs1 ++ {| Name := name;
                                     Utterances := us1 ++ us2 |} :: rs2))
        utterance.
Proof.
  intros Hroutes Hen Hget Hlen. split.
  - intros b. by apply scanStep_other_length with (em := em).
  - eapply Match_drop; [exact Hroutes |].
    intros q b b' Hen' _. rewrite Hen in Hen'. injection Hen' as <-.
    by apply scanStep_other_length with (em := em).
Qed.

Lemma Match_skips_other_length_witness :
  let r := fixtures.router [fixtures.chitchat; fixtures.greetings]
             [("hi", [one; zero; zero]); ("hey", [one; one])]
             [fixtures.dot one] in
  (∀ b : best,
     scanStep r [nine_tenths; one_tenth; zero]
       ("greetings", fixtures.utterance "hey") b = Value b)
  ∧ Match r "hello" = Match (withRoutes r [fixtures.chitchat;
                                          {| Name := "greetings";
                                             Utterances := [] |}]) "hello".
Proof.
  intros r.
  apply (Match_skips_other_length r "hello" [nine_tenths; one_tenth; zero]
           [fixtures.chitchat] [] "greetings" [] []
           (fixtures.utterance "hey") [one; one]).
  - reflexivity.
  - reflexivity.
  - vm_compute. reflexivity.
  - simpl. lia.
Defined.

(** With no weighted function every score is [0.0]. *)
Lemma computeScore_no_metric {E S : Type} (r : Router E S)
    (queryVec indexVec : VecDense) :
  biFuncCoefficients r = [] → computeScore r queryVec indexVec = zero.
Proof. unfold computeScore. by intros ->. Qed.

(** C7 (amended).  For a router whose list of weighted functions is empty,
    a query that the encoder turns into a vector that is not empty, and
    candidates whose embeddings are all retrieved, [Match] returns the
    failure "no route found" naming the query. *)
Theorem Match_no_metric_no_route {E S : Type} `{!Encoder E} `{!Store S}
    (r : Router E S) (utterance : string) (queryVec : VecDense) :
  biFuncCoefficients r = [] →
  Encode (RouterEncoder r) utterance = Ok queryVec →
  queryVec ≠ [] →
  (∀ c, c ∈ candidates (Routes r) →
        ∃ em, Get (Storage r) (Text (snd c)) = Ok em) →
  Match r utterance = noRouteFound utterance.
Proof.
  intros Hnone Hen Hq Hall. rewrite (Match_encoded r utterance queryVec) by done.
  assert (∀ cs, (∀ c, c ∈ cs → ∃ em, Get (Storage r) (Text (snd c)) = Ok em) →
                scanCandidates r queryVec cs ("", zero) = Value ("", zero))
    as Hscan.
  { induction cs as [| c cs IH]; intros Hcs; simpl; [reflexivity |].
    destruct (Hcs c) as [em Hget]; [by left |].
    assert (scanStep r queryVec c ("", zero) = Value ("", zero)) as ->.
    { destruct (decide (length em = length queryVec)) as [Hlen | Hlen].
      - rewrite (scanStep_same_length r queryVec c em) by done.
        unfold turn. rewrite computeScore_no_metric by done. reflexivity.
      - by apply scanStep_other_length with (em := em). }
    apply IH. intros c' Hc'. apply Hcs. by right. }
  rewrite Hscan by done. reflexivity.
Qed.

Lemma Match_no_metric_no_route_witness :
  Match (fixtures.router [fixtures.chitchat]
           [("hi", [one; zero; zero])] []) "hello"
  = noRouteFound "hello".
Proof.
  apply (Match_no_metric_no_route _ "hello" [nine_tenths; one_tenth; zero]).
  - reflexivity.
  - reflexivity.
  - discriminate.
  - intros c Hc. vm_compute in Hc.
    apply list_elem_of_singleton in Hc as ->.
    exists [one; zero; zero]. vm_compute. reflexivity.
Defined.

(** C7, as stated, fails: the list of weighted functions is empty, the
    encoding of the query [""] succeeds (with the empty vector), every
    retrieval would succeed, and [Match] panics where the claim has it
    return the failure "no route found". *)
Lemma Match_no_metric_empty_encoding :
  let r := fixtures.router [fixtures.chitchat]
             [("hi", [one; zero; zero])] [] in
  biFuncCoefficients r = []
  ∧ Encode (RouterEncoder r) "" = Ok []
  ∧ (∀ c, c ∈ candidates (Routes r) →
          ∃ em, Get (Storage r) (Text (snd c)) = Ok em)
  ∧ Match r "" = None
  ∧ Match r "" ≠ noRouteFound "".
Proof.
  intros r. split; [reflexivity |]. split; [reflexivity |]. split.
  - intros c Hc. vm_compute in Hc.
    apply list_elem_of_singleton in Hc as ->.
    exists [one; zero; zero]. vm_compute. reflexivity.
  - split; [reflexivity | discriminate].
Qed.

(** A text occurs in every string it ends. *)
Lemma substring_all (t : string) : String.substring 0 (String.length t) t = t.
Proof. induction t as [| a t IH]; simpl; [reflexivity | by rewrite IH]. Qed.

Lemma contains_append (p t : string) : contains t (p +:+ t) = true.
Proof.
  unfold contains.
  assert (String.index 0 t (p +:+ t) ≠ None) as Hfound.
  { induction p as [| a p IH].
    - change ("" +:+ t) with t.
      destruct t as [| b t]; cbn -[String.prefix]; [discriminate |].
      rewrite (proj2 (String.prefix_correct (String b t) (String b t)));
        [discriminate | apply substring_all].
    - change (String a p +:+ t) with (String a (p +:+ t)).
      cbn -[String.prefix].
      destruct (String.prefix t (String a (p +:+ t))); [discriminate |].
      destruct (String.index 0 t (p +:+ t)); [discriminate | done]. }
  destruct (String.index 0 t (p +:+ t)); done.
Qed.

(** C8.  When, in the scan of [Match], the retrieval of the embedding of an
    utterance fails, [Match] returns no route and no score but the failure
    [ErrGetEmbedding] naming that utterance. *)
Theorem Match_retrieval_failure {E S : Type} `{!Encoder E} `{!Store S}
    (r : Router E S) (utterance : string) (queryVec : VecDense)
    (before after : list candidate) (name : string) (ut : Utterance)
    (cause : error) :
  Encode (RouterEncoder r) utterance = Ok queryVec →
  queryVec ≠ [] →
  candidates (Routes r) = (before ++ (name, ut) :: after)%list →
  (∀ c, c ∈ before → ∃ em, Get (Storage r) (Text (snd c)) = Ok em) →
  Get (Storage r) (Text ut) = Err cause →
  Match r utterance
  = Some ("", zero,
          Some (Errorf "no route found: "
                  (ErrGetEmbedding
                     ("error getting embedding: " +:+ Text ut))))
  ∧ mentions (Text ut)
      (ErrGetEmbedding ("error getting embedding: " +:+ Text ut)) = true.
Proof.
  intros Hen Hq Hsplit Hall Hget. split.
  - rewrite (Match_encoded r utterance queryVec), Hsplit by done.
    by rewrite (scanCandidates_retrieval_fails r queryVec before after
                  (name, ut) cause).
  - apply contains_append.
Qed.

Lemma Match_retrieval_failure_witness :
  let r := fixtures.router [fixtures.chitchat; fixtures.greetings]
             [("hi", [one; zero; zero])] [fixtures.dot one] in
  Match r "hello"
  = Some ("", zero,
          Some (Errorf "no route found: "
                  (ErrGetEmbedding "error getting embedding: hey")))
  ∧ mentions "hey" (ErrGetEmbedding "error getting embedding: hey") = true.
Proof.
  intros r.
  apply (Match_retrieval_failure r "hello" [nine_tenths; one_tenth; zero]
           [("chitchat", fixtures.utterance "hi")] [] "greetings"
           (fixtures.utterance "hey") (ErrorString "store: key not found")).
  - reflexivity.
  - discriminate.
  - reflexivity.
  - intros c Hc. apply list_elem_of_singleton in Hc as ->.
    exists [one; zero; zero]. vm_compute. reflexivity.
  - vm_compute. reflexivity.
Defined.

(** Along the scan, the running best is the initial [("", 0.0)] or the
    name and score of a scanned candidate, that score above [0.0]. *)
Lemma scanCandidates_scored {E S : Type} `{!Store S} (r : Router E S)
    (queryVec : VecDense) (all cs : list candidate) :
  (∀ c, c ∈ cs → c ∈ all) →
  ∀ b b',
    scanCandidates r queryVec cs b = Value b' →
    b = ("", zero) ∨ (gt (snd b) zero = true ∧ scored r queryVec all b) →
    b' = ("", zero) ∨ (gt (snd b') zero = true ∧ scored r queryVec all b').
Proof.
  induction cs as [| c cs IH]; simpl; intros Hsub b b' Hscan Hb.
  - congruence.
  - destruct (scanStep r queryVec c b) as [| | b1] eqn:Hstep;
      try discriminate.
    apply (IH (fun c' Hc' => Hsub c' (list_elem_of_further _ _ _ Hc')) b1 b'
             Hscan).
    apply scanStep_Value in Hstep as (em & Hget & [[_ ->] | [Hlen ->]]);
      [done |].
    unfold turn.
    destruct (gt (computeScore r queryVec em) b.2) eqn:Hgt; [| done].
    right. split.
    + simpl. destruct Hb as [-> | [Hpos _]]; [done |].
      eauto using gt_trans.
    + exists c, em. repeat split; try done. apply Hsub. by left.
Qed.

(** C9.  When [Match] returns without a failure, the route name is not
    empty, the score is strictly greater than [0.0], and they are the name
    and the score of a candidate that was scanned: a candidate whose score
    is zero, negative or not a number is never the winner. *)
Theorem Match_success_positive_score {E S : Type} `{!Encoder E} `{!Store S}
    (r : Router E S) (utterance : string) (name : string) (score : float64) :
  Match r utterance = Some (name, score, None) →
  name ≠ ""
  ∧ gt score zero = true
  ∧ ∃ queryVec,
      Encode (RouterEncoder r) utterance = Ok queryVec
      ∧ scored r queryVec (candidates (Routes r)) (name, score).
Proof.
  unfold Match, matchTask.
  destruct (Encode (RouterEncoder r) utterance) as [enc | err];
    [| discriminate].
  destruct (NewVecDense (length enc) enc) as [queryVec |] eqn:Hv;
    [| discriminate].
  apply NewVecDense_length in Hv as [-> _].
  rewrite scanRoutes_candidates.
  destruct (scanCandidates r enc (candidates (Routes r)) ("", zero))
    as [| err | [n s]] eqn:Hscan; try discriminate.
  destruct (String.eqb_spec n "") as [-> | Hname]; [discriminate |].
  intros [= <- <-].
  destruct (scanCandidates_scored r enc (candidates (Routes r))
              (candidates (Routes r)) (fun c Hc => Hc) _ _ Hscan)
    as [[= -> _] | [Hpos Hscored]]; [by left | done |].
  eauto.
Qed.

Lemma Match_success_positive_score_witness :
  let r := fixtures.router [fixtures.chitchat]
             [("hi", [one; zero; zero])] [fixtures.dot one] in
  "chitchat" ≠ ""
  ∧ gt nine_tenths zero = true
  ∧ ∃ queryVec,
      Encode (RouterEncoder r) "hello" = Ok queryVec
      ∧ scored r queryVec (candidates (Routes r)) ("chitchat", nine_tenths).
Proof.
  intros r. apply (Match_success_positive_score r "hello").
  vm_compute. reflexivity.
Defined.

(** The single-route scenario of the design document: one route
    ["chitchat"], one utterance of embedding [[1,0,0]], the query embedding
    [[0.9,0.1,0]], the dot product with coefficient [1.0]: the route is
    returned with the score [0.9]. *)
Example Match_single_route :
  Match (fixtures.router [fixtures.chitchat]
           [("hi", [one; zero; zero])] [fixtures.dot one]) "hello"
  = Some ("chitchat", nine_tenths, None).
Proof. vm_compute. reflexivity. Qed.

(** A query identical to the only utterance, scored by a distance alone
    with the coefficient [1.0]: the score is [0.0] and no route is found. *)
Example Match_identical_under_distance :
  Match (fixtures.router [fixtures.chitchat] [("hi", [one; zero; zero])]
           [{| Func := fixtures.ManhattanDistance; Coefficient := one |}])
    "hi"
  = noRouteFound "hi".
Proof. vm_compute. reflexivity. Qed.

(** * Further properties of the code *)

(** ** Options *)

Lemma accumulate_snoc (fns : list biFuncCoefficient) (fn : biFuncCoefficient)
    (queryVec indexVec : VecDense) :
  ∀ score,
    accumulate (fns ++ [fn])%list queryVec indexVec score
    = add (accumulate fns queryVec indexVec score)
        (mul (Coefficient fn) (Func fn queryVec indexVec)).
Proof.
  induction fns as [| fn0 fns IH]; intros score; simpl; [reflexivity |].
  apply IH.
Qed.

(** X1.  The options, applied one after the other to a router, append
    their (similarity function, coefficient) pairs to its list in the order
    they are applied, and leave its routes, its encoder and its store as
    they are. *)
Theorem options_append_in_order {E S : Type}
    (SimilarityDotMatrix EuclideanDistance ManhattanDistance
     JaccardSimilarity PearsonCorrelation : VecDense → VecDense → float64)
    (chs : list choice) (r : Router E S) :
  let opts :=
    optionOf SimilarityDotMatrix EuclideanDistance ManhattanDistance
      JaccardSimilarity PearsonCorrelation <$> chs in
  let pairs :=
    pairOf SimilarityDotMatrix EuclideanDistance ManhattanDistance
      JaccardSimilarity PearsonCorrelation <$> chs in
  biFuncCoefficients (applyOptions opts r)
  = (biFuncCoefficients r ++ pairs)%list
  ∧ Routes (applyOptions opts r) = Routes r
  ∧ RouterEncoder (applyOptions opts r) = RouterEncoder r
  ∧ Storage (applyOptions opts r) = Storage r.
Proof.
  simpl. unfold applyOptions. revert r.
  induction chs as [| ch chs IH]; intros r.
  - simpl. by rewrite app_nil_r.
  - rewrite !fmap_cons. cbn [foldl].
    destruct (IH (optionOf SimilarityDotMatrix EuclideanDistance
                    ManhattanDistance JaccardSimilarity PearsonCorrelation
                    ch r)) as (Hfns & Hroutes & Hencoder & Hstore).
    rewrite Hfns, Hroutes, Hencoder, Hstore, optionOf_appended. simpl.
    by rewrite <- app_assoc.
Qed.

(** X2.  An option adds one term to every score: after the option, the
    score of a candidate is the score before it plus the coefficient times
    the similarity function of the option, added last. *)
Theorem option_adds_term {E S : Type}
    (SimilarityDotMatrix EuclideanDistance ManhattanDistance
     JaccardSimilarity PearsonCorrelation : VecDense → VecDense → float64)
    (ch : choice) (r : Router E S) (queryVec indexVec : VecDense) :
  let opt :=
    optionOf SimilarityDotMatrix EuclideanDistance ManhattanDistance
      JaccardSimilarity PearsonCorrelation ch in
  let fn :=
    pairOf SimilarityDotMatrix EuclideanDistance ManhattanDistance
      JaccardSimilarity PearsonCorrelation ch in
  computeScore (opt r) queryVec indexVec
  = add (computeScore r queryVec indexVec)
      (mul (Coefficient fn) (Func fn queryVec indexVec)).
Proof.
  simpl. rewrite optionOf_appended. unfold computeScore. simpl.
  apply accumulate_snoc.
Qed.

(** ** The in-memory store *)

Lemma Get_after_call (k : string) (c : memory.call)
    (m : gmap string (list float64)) :
  staysOpen c →
  ∃ m', memory.run_call c {| memory.store := Some m |}
        = Some {| memory.store := Some m' |}
        ∧ memory.Get {| memory.store := Some m' |} k
          = match writes k c with
            | Some e => Ok e
            | None => memory.Get {| memory.store := Some m |} k
            end.
Proof.
  destruct c as [k' | u |]; simpl; intros Hopen; [| | done].
  - by exists m.
  - exists (<[Text u := Embed u]> m). split; [reflexivity |].
    unfold memory.Get. simpl.
    destruct (String.eqb_spec (Text u) k) as [-> | Hne].
    + by rewrite lookup_insert_eq.
    + by rewrite lookup_insert_ne.
Qed.

(** X3.  On an open store, a run of [Set] and [Get] calls never panics and
    leaves the store open; after it, [Get] of a key returns the embedding
    of the last [Set] under that key, and what it returned before the run
    when the run has no [Set] under that key. *)
Theorem memory_last_Set_wins (cs : list memory.call) :
  ∀ m : gmap string (list float64),
    Forall staysOpen cs →
    ∃ m', memory.run cs {| memory.store := Some m |}
          = Some {| memory.store := Some m' |}
          ∧ ∀ k, memory.Get {| memory.store := Some m' |} k
                 = match lastSet k cs with
                   | Some e => Ok e
                   | None => memory.Get {| memory.store := Some m |} k
                   end.
Proof.
  induction cs as [| c cs IH]; intros m Hopen.
  - exists m. by split.
  - apply Forall_cons in Hopen as [Hc Hcs].
    destruct (Get_after_call "" c m Hc) as (m1 & Hstep & _).
    destruct (IH m1 Hcs) as (m' & Hrun & Hget).
    exists m'. split.
    + simpl. rewrite Hstep. exact Hrun.
    + intros k. rewrite Hget. simpl.
      destruct (lastSet k cs); [reflexivity |].
      destruct (Get_after_call k c m Hc) as (m2 & Hstep2 & Hget2).
      rewrite Hstep in Hstep2. by injection Hstep2 as <-.
Qed.

Lemma memory_last_Set_wins_witness :
  ∃ m', memory.run
          [memory.CallSet {| Text := "hi"; Embed := [one] |};
           memory.CallGet "hi";
           memory.CallSet {| Text := "hi"; Embed := [zero; one] |};
           memory.CallSet {| Text := "yo"; Embed := [] |}]
          {| memory.store := Some ∅ |}
        = Some {| memory.store := Some m' |}
        ∧ ∀ k, memory.Get {| memory.store := Some m' |} k
               = match lastSet k
                         [memory.CallSet {| Text := "hi"; Embed := [one] |};
                          memory.CallGet "hi";
                          memory.CallSet
                            {| Text := "hi"; Embed := [zero; one] |};
                          memory.CallSet {| Text := "yo"; Embed := [] |}]
                 with
                 | Some e => Ok e
                 | None => memory.Get {| memory.store := Some ∅ |} k
                 end.
Proof.
  apply (memory_last_Set_wins
           [memory.CallSet {| Text := "hi"; Embed := [one] |};
            memory.CallGet "hi";
            memory.CallSet {| Text := "hi"; Embed := [zero; one] |};
            memory.CallSet {| Text := "yo"; Embed := [] |}] ∅).
  repeat constructor.
Defined.

(** X4.  [Close] never fails and is idempotent; on the store it leaves,
    every [Get] returns the error "key does not exist", whatever had been
    stored, and every [Set] panics. *)
Theorem memory_after_Close (s : memory.Store) :
  let closed := fst (memory.Close s) in
  snd (memory.Close s) = None
  ∧ memory.Close closed = (closed, None)
  ∧ (∀ k, memory.Get closed k = Err (ErrorfNil "key does not exist: "))
  ∧ (∀ u, memory.Set_ closed u = None).
Proof.
  destruct s as [[m |]]; simpl; repeat split; reflexivity.
Qed.

(** ** More on the scan of [Match] *)

Section ScanFacts.

Context {E S : Type} `{!Encoder E} `{!Store S}.

Variable r : Router E S.
Variable queryVec : VecDense.

(** A turn reads the name of the route and the text of the utterance. *)
Lemma scanStep_keyOf (c c' : candidate) (b : best) :
  keyOf c = keyOf c' →
  scanStep r queryVec c b = scanStep r queryVec c' b.
Proof.
  destruct c as [n u], c' as [n' u']. unfold keyOf. simpl.
  intros [= <- Htext]. rewrite !scanStep_eq. unfold turn. simpl.
  by rewrite Htext.
Qed.

Lemma scanCandidates_keyOf (cs : list candidate) :
  ∀ cs' b, keyOf <$> cs = keyOf <$> cs' →
           scanCandidates r queryVec cs b = scanCandidates r queryVec cs' b.
Proof.
  induction cs as [| c cs IH]; intros [| c' cs'] b Hkeys;
    try discriminate; [reflexivity |].
  rewrite !fmap_cons in Hkeys.
  assert (keyOf c = keyOf c') as Hc by congruence.
  assert (keyOf <$> cs = keyOf <$> cs') as Hcs by congruence. simpl.
  rewrite (scanStep_keyOf c c' b Hc).
  destruct (scanStep r queryVec c' b); auto.
Qed.

(** The scan raises nothing but a failed retrieval, with the text of the
    utterance whose embedding was not retrieved. *)
Lemma scanCandidates_Raise (cs : list candidate) :
  ∀ b err,
    scanCandidates r queryVec cs b = Raise err →
    ∃ c cause,
      c ∈ cs
      ∧ Get (Storage r) (Text (snd c)) = Err cause
      ∧ err = ErrGetEmbedding ("error getting embedding: " +:+ Text (snd c)).
Proof.
  induction cs as [| c cs IH]; simpl; intros b err Hscan; [discriminate |].
  destruct (scanStep r queryVec c b) as [| e | b1] eqn:Hstep;
    try discriminate.
  - injection Hscan as <-. rewrite scanStep_eq in Hstep.
    destruct (Get (Storage r) (Text c.2)) as [em | cause] eqn:Hget.
    + destruct (negb (Nat.eqb (length em) (length queryVec)));
        [discriminate |].
      destruct (NewVecDense (length em) em); discriminate.
    + injection Hstep as <-. exists c, cause. repeat split; [by left | done].
  - destruct (IH b1 err Hscan) as (c' & cause & Hin & Hget & ->).
    exists c', cause. repeat split; [by right | done].
Qed.

(** When every embedding is retrieved and no scored candidate beats the
    running best, the scan leaves the running best as it is. *)
Lemma scanCandidates_stays (cs : list candidate) (b : best) :
  queryVec ≠ [] →
  (∀ c, c ∈ cs → ∃ em, Get (Storage r) (Text (snd c)) = Ok em) →
  (∀ c em, c ∈ cs → Get (Storage r) (Text (snd c)) = Ok em →
           length em = length queryVec →
           gt (computeScore r queryVec em) (snd b) = false) →
  scanCandidates r queryVec cs b = Value b.
Proof.
  intros Hq. induction cs as [| c cs IH]; simpl; intros Hall Hlow;
    [reflexivity |].
  destruct (Hall c) as [em Hget]; [by left |].
  assert (scanStep r queryVec c b = Value b) as ->.
  { destruct (decide (length em = length queryVec)) as [Hlen | Hlen].
    - rewrite (scanStep_same_length r queryVec c em) by done.
      unfold turn. rewrite (Hlow c em); [done | by left | done..].
    - by apply scanStep_other_length with (em := em). }
  apply IH.
  - intros c' Hc'. apply Hall. by right.
  - intros c' em' Hc'. apply Hlow. by right.
Qed.

(** After a scan from [("", 0.0)], the running best is still [("", 0.0)]
    or is the name and the score of a candidate such that no scored
    candidate before it has that score. *)
Lemma scanCandidates_winner (cs : list candidate) :
  ∀ b,
    scanCandidates r queryVec cs ("", zero) = Value b →
    b = ("", zero)
    ∨ ∃ before c after em,
        cs = (before ++ c :: after)%list
        ∧ Get (Storage r) (Text (snd c)) = Ok em
        ∧ length em = length queryVec
        ∧ b = (fst c, computeScore r queryVec em)
        ∧ gt (computeScore r queryVec em) zero = true
        ∧ (∀ c' em', c' ∈ before →
                     Get (Storage r) (Text (snd c')) = Ok em' →
                     length em' = length queryVec →
                     computeScore r queryVec em' ≠ computeScore r queryVec em).
Proof.
  induction cs as [| c cs IH] using rev_ind; intros b Hscan.
  - left. simpl in Hscan. congruence.
  - rewrite scanCandidates_app in Hscan.
    destruct (scanCandidates r queryVec cs ("", zero)) as [| | b1] eqn:Hcs;
      try discriminate.
    specialize (IH b1 eq_refl). simpl in Hscan.
    destruct (scanStep r queryVec c b1) as [| | b2] eqn:Hstep;
      try discriminate.
    injection Hscan as <-.
    assert (b2 = b1 →
            b2 = ("", zero)
            ∨ ∃ before c0 after em,
                (cs ++ [c])%list = (before ++ c0 :: after)%list
                ∧ Get (Storage r) (Text (snd c0)) = Ok em
                ∧ length em = length queryVec
                ∧ b2 = (fst c0, computeScore r queryVec em)
                ∧ gt (computeScore r queryVec em) zero = true
                ∧ (∀ c' em', c' ∈ before →
                     Get (Storage r) (Text (snd c')) = Ok em' →
                     length em' = length queryVec →
                     computeScore r queryVec em'
                     ≠ computeScore r queryVec em)) as Hsame.
    { intros ->.
      destruct IH
        as [Hb1 | (before & c0 & after & em & Hcs0 & Hget & Hlen & Hb1
                   & Hrest)];
        [by left | right].
      exists before, c0, (after ++ [c])%list, em.
      split; [by rewrite Hcs0, <- app_assoc | done]. }
    apply scanStep_Value in Hstep as (em & Hget & [[_ Hb2] | [Hlen Hb2]]);
      [auto |].
    unfold turn in Hb2.
    destruct (gt (computeScore r queryVec em) b1.2) eqn:Hgt; [| auto].
    right. exists cs, c, [], em. repeat split; try done.
    + destruct IH as [Hb1 | (bf & c0 & af & em0 & ? & ? & ? & Hb1 & Hpos & ?)];
        rewrite Hb1 in Hgt; [done | eauto using gt_trans].
    + intros c' em' Hin Hget' Hlen' Heq.
      pose proof (scanCandidates_unbeaten r queryVec cs _ b1 c' em'
                    Hcs Hin Hget' Hlen') as Hlow.
      rewrite Heq, Hgt in Hlow. discriminate.
Qed.

End ScanFacts.

Section MatchShape.

Context {E S : Type} `{!Encoder E} `{!Store S}.

(** A successful [Match] is a scan that ran to its end on a query vector
    that is not empty, and ended on a route with a name. *)
Lemma Match_Value (r : Router E S) (utterance name : string)
    (score : float64) :
  Match r utterance = Some (name, score, None) →
  ∃ queryVec,
    Encode (RouterEncoder r) utterance = Ok queryVec
    ∧ queryVec ≠ []
    ∧ scanCandidates r queryVec (candidates (Routes r)) ("", zero)
      = Value (name, score)
    ∧ name ≠ "".
Proof.
  unfold Match, matchTask.
  destruct (Encode (RouterEncoder r) utterance) as [enc | err];
    [| discriminate].
  destruct (NewVecDense (length enc) enc) as [queryVec |] eqn:Hv;
    [| discriminate].
  apply NewVecDense_length in Hv as [-> Hq].
  rewrite scanRoutes_candidates.
  destruct (scanCandidates r enc (candidates (Routes r)) ("", zero))
    as [| err | [n s]] eqn:Hscan; try discriminate.
  destruct (String.eqb_spec n "") as [-> | Hname]; [discriminate |].
  intros [= <- <-]. by exists enc.
Qed.

End MatchShape.

(** ** More on [Match] *)

(** X5.  A failure of [Match] comes with the empty route name and the score
    [0.0], and is "no route found: " wrapping one of three errors: the
    encoding error naming the query when the encoder failed, the retrieval
    error naming an utterance of the routes whose embedding the store did
    not return, or the error that no route was found for the query. *)
Theorem Match_failure_shape {E S : Type} `{!Encoder E} `{!Store S}
    (r : Router E S) (utterance name : string) (score : float64)
    (err : error) :
  Match r utterance = Some (name, score, Some err) →
  name = "" ∧ score = zero
  ∧ ((∃ cause,
        Encode (RouterEncoder r) utterance = Err cause
        ∧ err = Errorf "no route found: "
                  (ErrEncoding ("error encoding utterance: " +:+ utterance)))
     ∨ (∃ c cause,
          c ∈ candidates (Routes r)
          ∧ Get (Storage r) (Text (snd c)) = Err cause
          ∧ err = Errorf "no route found: "
                    (ErrGetEmbedding
                       ("error getting embedding: " +:+ Text (snd c))))
     ∨ err = Errorf "no route found: "
               (ErrNoRouteFound "no route found" utterance)).
Proof.
  unfold Match, matchTask.
  destruct (Encode (RouterEncoder r) utterance) as [enc | cause] eqn:Hen.
  2: { intros [= <- <- <-]. repeat split. left. by exists cause. }
  destruct (NewVecDense (length enc) enc) as [queryVec |] eqn:Hv;
    [| discriminate].
  rewrite scanRoutes_candidates.
  destruct (scanCandidates r queryVec (candidates (Routes r)) ("", zero))
    as [| e | [n s]] eqn:Hscan; try discriminate.
  - intros [= <- <- <-]. repeat split. right. left.
    apply scanCandidates_Raise in Hscan as (c & cause & Hin & Hget & ->).
    by exists c, cause.
  - destruct (String.eqb n ""); [| discriminate].
    intros [= <- <- <-]. repeat split. by right; right.
Qed.

Lemma Match_failure_shape_witness :
  let r := fixtures.router [fixtures.chitchat; fixtures.greetings]
             [("hi", [one; zero; zero])] [fixtures.dot one] in
  let err := Errorf "no route found: "
               (ErrGetEmbedding "error getting embedding: hey") in
  "" = "" ∧ zero = zero
  ∧ ((∃ cause,
        Encode (RouterEncoder r) "hello" = Err cause
        ∧ err = Errorf "no route found: "
                  (ErrEncoding ("error encoding utterance: " +:+ "hello")))
     ∨ (∃ c cause,
          c ∈ candidates (Routes r)
          ∧ Get (Storage r) (Text (snd c)) = Err cause
          ∧ err = Errorf "no route found: "
                    (ErrGetEmbedding
                       ("error getting embedding: " +:+ Text (snd c))))
     ∨ err = Errorf "no route found: "
               (ErrNoRouteFound "no route found" "hello")).
Proof.
  intros r err. apply (Match_failure_shape r "hello" "" zero err).
  vm_compute. reflexivity.
Defined.

(** X6.  [Match] reads, of the routes, the names and the texts of the
    utterances only: two lists of routes with the same names and texts in
    the same order give the same result, whatever the embedding fields of
    their utterances and however the utterances are grouped into routes of
    one name. *)
Theorem Match_reads_names_and_texts {E S : Type} `{!Encoder E} `{!Store S}
    (r : Router E S) (routes : list Route) (utterance : string) :
  keyOf <$> candidates (Routes r) = keyOf <$> candidates routes →
  Match r utterance = Match (withRoutes r routes) utterance.
Proof.
  intros Hkeys. apply Match_same_scan. intros queryVec b _.
  by apply scanCandidates_keyOf.
Qed.

Lemma Match_reads_names_and_texts_witness :
  let r := fixtures.router [fixtures.chitchat]
             [("hi", [one; zero; zero])] [fixtures.dot one] in
  Match r "hello"
  = Match (withRoutes r
             [{| Name := "chitchat"; Utterances := [] |};
              {| Name := "chitchat";
                 Utterances := [{| Text := "hi"; Embed := [zero; zero] |}] |}])
      "hello".
Proof.
  intros r. apply (Match_reads_names_and_texts r). reflexivity.
Defined.

(** X7.  When the query is encoded to a vector that is not empty and every
    stored embedding is retrieved with another length than the query
    vector (in particular when the routes have no utterance at all),
    [Match] returns the failure that no route was found. *)
Theorem Match_no_candidate_of_length {E S : Type} `{!Encoder E} `{!Store S}
    (r : Router E S) (utterance : string) (queryVec : VecDense) :
  Encode (RouterEncoder r) utterance = Ok queryVec →
  queryVec ≠ [] →
  (∀ c, c ∈ candidates (Routes r) →
        ∃ em, Get (Storage r) (Text (snd c)) = Ok em
              ∧ length em ≠ length queryVec) →
  Match r utterance = noRouteFound utterance.
Proof.
  intros Hen Hq Hall.
  rewrite (Match_encoded r utterance queryVec) by done.
  rewrite scanCandidates_stays; [reflexivity | done | |].
  - intros c Hc. destruct (Hall c Hc) as (em & Hget & _). by exists em.
  - intros c em Hc Hget Hlen. destruct (Hall c Hc) as (em' & Hget' & Hne).
    congruence.
Qed.

Lemma Match_no_candidate_of_length_witness :
  Match (fixtures.router [fixtures.chitchat] [("hi", [one; zero])]
           [fixtures.dot one]) "hello"
  = noRouteFound "hello".
Proof.
  apply (Match_no_candidate_of_length _ "hello"
           [nine_tenths; one_tenth; zero]).
  - reflexivity.
  - discriminate.
  - intros c Hc. apply list_elem_of_singleton in Hc as ->.
    exists [one; zero]. split; [vm_compute; reflexivity | simpl; lia].
Defined.

(** X8.  When [Match] returns a route, it is the route of the first
    candidate, in route order then utterance order, whose score is the
    score returned, and no scored candidate has a score strictly greater. *)
Theorem Match_returns_first_best {E S : Type} `{!Encoder E} `{!Store S}
    (r : Router E S) (utterance name : string) (score : float64) :
  Match r utterance = Some (name, score, None) →
  ∃ queryVec before c after em,
    Encode (RouterEncoder r) utterance = Ok queryVec
    ∧ candidates (Routes r) = (before ++ c :: after)%list
    ∧ fst c = name
    ∧ Get (Storage r) (Text (snd c)) = Ok em
    ∧ length em = length queryVec
    ∧ computeScore r queryVec em = score
    ∧ (∀ c' em', c' ∈ before →
                 Get (Storage r) (Text (snd c')) = Ok em' →
                 length em' = length queryVec →
                 computeScore r queryVec em' ≠ score)
    ∧ (∀ c' em', c' ∈ candidates (Routes r) →
                 Get (Storage r) (Text (snd c')) = Ok em' →
                 length em' = length queryVec →
                 gt (computeScore r queryVec em') score = false).
Proof.
  intros Hmatch.
  apply Match_Value in Hmatch as (queryVec & Hen & Hq & Hscan & Hname).
  destruct (scanCandidates_winner r queryVec _ _ Hscan)
    as [[= Hn _]
       | (before & c & after & em & Hsplit & Hget & Hlen & [= -> ->]
          & _ & Hfirst)];
    [done |].
  exists queryVec, before, c, after, em. repeat split; try done.
  intros c' em' Hin Hget' Hlen'.
  apply (scanCandidates_unbeaten r queryVec _ _ _ c' em' Hscan Hin Hget' Hlen').
Qed.

Lemma Match_returns_first_best_witness :
  let r := fixtures.router [fixtures.chitchat; fixtures.greetings]
             [("hi", [one; zero; zero]); ("hey", [one; zero; zero])]
             [fixtures.dot one] in
  ∃ queryVec before c after em,
    Encode (RouterEncoder r) "hello" = Ok queryVec
    ∧ candidates (Routes r) = (before ++ c :: after)%list
    ∧ fst c = "chitchat"
    ∧ Get (Storage r) (Text (snd c)) = Ok em
    ∧ length em = length queryVec
    ∧ computeScore r queryVec em = nine_tenths
    ∧ (∀ c' em', c' ∈ before →
                 Get (Storage r) (Text (snd c')) = Ok em' →
                 length em' = length queryVec →
                 computeScore r queryVec em' ≠ nine_tenths)
    ∧ (∀ c' em', c' ∈ candidates (Routes r) →
                 Get (Storage r) (Text (snd c')) = Ok em' →
                 length em' = length queryVec →
                 gt (computeScore r queryVec em') nine_tenths = false).
Proof.
  intros r. apply (Match_returns_first_best r "hello").
  vm_compute. reflexivity.
Defined.

(** X9.  When the query is encoded to a vector that is not empty and every
    embedding is retrieved, a scored candidate [c] whose score is above
    [0.0], strictly above every score above [0.0] of the candidates before
    it and not below any score of the candidates after it decides [Match]:
    its route and its score are returned, and when its route has the empty
    name, the failure that no route was found. *)
Theorem Match_first_best_wins {E S : Type} `{!Encoder E} `{!Store S}
    (r : Router E S) (utterance : string) (queryVec : VecDense)
    (before after : list candidate) (c : candidate) (em : list float64) :
  Encode (RouterEncoder r) utterance = Ok queryVec →
  queryVec ≠ [] →
  candidates (Routes r) = (before ++ c :: after)%list →
  (∀ c', c' ∈ candidates (Routes r) →
         ∃ em', Get (Storage r) (Text (snd c')) = Ok em') →
  Get (Storage r) (Text (snd c)) = Ok em →
  length em = length queryVec →
  gt (computeScore r queryVec em) zero = true →
  (∀ c' em', c' ∈ before →
             Get (Storage r) (Text (snd c')) = Ok em' →
             length em' = length queryVec →
             gt (computeScore r queryVec em') zero = true →
             gt (computeScore r queryVec em) (computeScore r queryVec em')
             = true) →
  (∀ c' em', c' ∈ after →
             Get (Storage r) (Text (snd c')) = Ok em' →
             length em' = length queryVec →
             gt (computeScore r queryVec em') (computeScore r queryVec em)
             = false) →
  Match r utterance
  = if String.eqb (fst c) "" then noRouteFound utterance
    else Some (fst c, computeScore r queryVec em, None).
Proof.
  intros Hen Hq Hsplit Hall Hget Hlen Hpos Hbefore Hafter.
  rewrite (Match_encoded r utterance queryVec), Hsplit by done.
  rewrite scanCandidates_app.
  destruct (scanCandidates_runs r queryVec before Hq) with (b := ("", zero))
    as [b1 Hb1].
  { intros c' Hc'. apply Hall. rewrite Hsplit. apply elem_of_app. by left. }
  rewrite Hb1. simpl.
  assert (gt (computeScore r queryVec em) (snd b1) = true) as Hbeats.
  { destruct (scanCandidates_scored r queryVec before before
                (fun c' Hc' => Hc') _ _ Hb1)
      as [-> | [Hpos1 (c1 & em1 & Hin1 & _ & Hget1 & Hlen1 & Hb)]];
      [by left | done |].
    rewrite Hb. rewrite Hb in Hpos1. eauto. }
  rewrite (scanStep_same_length r queryVec c em) by done.
  unfold turn. rewrite Hbeats.
  rewrite scanCandidates_stays; [reflexivity | done | |].
  - intros c' Hc'. apply Hall. rewrite Hsplit.
    apply elem_of_app. right. by right.
  - simpl. eauto.
Qed.

Lemma Match_first_best_wins_witness :
  let r := fixtures.router [fixtures.chitchat; fixtures.greetings]
             [("hi", [one; zero; zero]); ("hey", [one; zero; zero])]
             [fixtures.dot one] in
  Match r "hello"
  = if String.eqb "chitchat" "" then noRouteFound "hello"
    else Some ("chitchat",
               computeScore r [nine_tenths; one_tenth; zero]
                 [one; zero; zero], None).
Proof.
  intros r.
  apply (Match_first_best_wins r "hello" [nine_tenths; one_tenth; zero] []
           [("greetings", fixtures.utterance "hey")]
           ("chitchat", fixtures.utterance "hi") [one; zero; zero]).
  - reflexivity.
  - discriminate.
  - reflexivity.
  - intros c Hc. vm_compute in Hc.
    apply elem_of_cons in Hc as [-> | Hc];
      [| apply list_elem_of_singleton in Hc as ->];
      exists [one; zero; zero]; vm_compute; reflexivity.
  - vm_compute. reflexivity.
  - reflexivity.
  - vm_compute. reflexivity.
  - intros c em Hc. by apply elem_of_nil in Hc.
  - intros c em Hc Hget _. apply list_elem_of_singleton in Hc as ->.
    vm_compute in Hget. injection Hget as <-. vm_compute. reflexivity.
Defined.

(** ** Construction, then matching *)

(** X10.  On a router that [NewRouter] has returned, whatever the options
    it was given, [Match] never returns a route: the list of weighted
    functions of such a router is empty, and every score is [0.0]. *)
Theorem NewRouter_then_Match_finds_no_route {E S : Type} `{!Encoder E}
    `{!Store S} (SetEmbedding : Utterance → list float64 → result Utterance)
    (routes : list Route) (encoder : E) (store : S)
    (opts : list (Option E S)) (w : S * list Utterance) (r : Router E S)
    (utterance : string) :
  NewRouter SetEmbedding routes encoder store opts = (w, Ok r) →
  ∀ name score, Match r utterance ≠ Some (name, score, None).
Proof.
  intros Hnew name score Hmatch.
  apply NewRouter_returns in Hnew as [Hr _].
  assert (biFuncCoefficients r = []) as Hnone by (by rewrite Hr).
  apply Match_Value in Hmatch as (queryVec & _ & _ & Hscan & Hname).
  destruct (scanCandidates_scored r queryVec _ _ (fun c Hc => Hc) _ _ Hscan)
    as [[= Hn _] | [Hpos (c & em & _ & _ & _ & _ & Hscore)]];
    [by left | done |].
  simpl in Hpos, Hscore.
  rewrite Hscore, computeScore_no_metric in Hpos by done.
  discriminate.
Qed.

Lemma NewRouter_then_Match_finds_no_route_witness :
  let st := {| fixtures.cells := <["hi" := [one; zero; zero]]> ∅;
               fixtures.refused := [] |} in
  let r := {| Routes := [fixtures.chitchat];
              RouterEncoder := fixtures.hiEncoder;
              Storage := st;
              biFuncCoefficients := [] |} in
  Match r "hello" ≠ Some ("chitchat", nine_tenths, None).
Proof.
  intros st r.
  apply (NewRouter_then_Match_finds_no_route fixtures.attachEmbedding
           [fixtures.chitchat] fixtures.hiEncoder fixtures.emptyStore
           [WithSimilarityDotMatrix fixtures.SimilarityDotMatrix one]
           (st, [{| Text := "hi"; Embed := [one; zero; zero] |}]) r "hello").
  vm_compute. reflexivity.
Defined.

(** ** Failures of construction *)





(** ** Panics of [Match] *)

(** On a query vector that is not empty the scan does not panic: a stored
    embedding of the same length is not empty either. *)
Lemma scanCandidates_no_Panic {E S : Type} `{!Store S} (r : Router E S)
    (queryVec : VecDense) (cs : list candidate) :
  queryVec ≠ [] → ∀ b, scanCandidates r queryVec cs b ≠ Panic.
Proof.
  intros Hq. induction cs as [| c cs IH]; simpl; intros b; [done |].
  destruct (scanStep r queryVec c b) as [| e | b1] eqn:Hstep; [| done | auto].
  exfalso. rewrite scanStep_eq in Hstep.
  destruct (Get (Storage r) (Text c.2)) as [em | cause]; [| discriminate].
  destruct (Nat.eqb_spec (length em) (length queryVec)) as [Hlen | Hlen];
    simpl in Hstep; [| discriminate].
  rewrite NewVecDense_data in Hstep; [discriminate |].
  intros ->. destruct queryVec; [done | discriminate].
Qed.

(** X12.  [Match] panics exactly when the encoder returns, without an
    error, the empty vector for the query; in every other case it returns
    its three results. *)
Theorem Match_panics_on_empty_encoding_only {E S : Type} `{!Encoder E}
    `{!Store S} (r : Router E S) (utterance : string) :
  Match r utterance = None ↔ Encode (RouterEncoder r) utterance = Ok [].
Proof.
  split; [| apply Match_empty_encoding].
  unfold Match, matchTask.
  destruct (Encode (RouterEncoder r) utterance) as [enc | cause];
    [| discriminate].
  destruct enc as [| x enc]; [done |]. intros Hmatch. exfalso.
  rewrite NewVecDense_data, scanRoutes_candidates in Hmatch by done.
  destruct (scanCandidates r (x :: enc) (candidates (Routes r)) ("", zero))
    as [| e | [n s]] eqn:Hscan; try discriminate.
  - by apply scanCandidates_no_Panic in Hscan.
  - destruct (String.eqb n ""); discriminate.
Qed.
